(** * S-SPHAR video generation: instance tracking and tube extraction

    A shallow embedding of [scripts/video_generation/helper_classes.py],
    [helper_functions.py] and the tracking loop of [generate_video.py],
    with the properties of the instance store, the matching score, the
    greedy tracker and the tube builder.

    Python integers are [Z]; Python lists are [list]; an object that the
    code mutates in place (the store, an instance's [frames]) is threaded
    explicitly: every method takes the store and returns the new one.
    Instances are held by value: the tracker only ever inserts freshly
    constructed [Instance] objects, so no object occurs twice in a store. *)

From Stdlib Require Import ZArith Bool String Lia Permutation Sorted List.
Import ListNotations.
Open Scope Z_scope.

Set Implicit Arguments.

(** ** Exceptions and results *)

Inductive exn : Type :=
| ValueError
| IndexError
| TypeError
| ShapeMismatch.

Inductive result (A : Type) : Type :=
| Ok (a : A)
| Raise (e : exn).

Arguments Ok {A} a.
Arguments Raise {A} e.

Definition bind {A B} (r : result A) (k : A -> result B) : result B :=
  match r with
  | Ok a => k a
  | Raise e => Raise e
  end.

Notation "x <- r ;; k" := (bind r (fun x => k))
  (at level 61, r at next level, right associativity).
Notation "' pat <- r ;; k" := (bind r (fun x => match x with pat => k end))
  (at level 61, pat pattern, r at next level, right associativity).

Fixpoint mapM {A B} (f : A -> result B) (l : list A) : result (list B) :=
  match l with
  | [] => Ok []
  | a :: l' => b <- f a ;; bs <- mapM f l' ;; Ok (b :: bs)
  end.

Fixpoint foldM {A B} (f : A -> B -> result A) (a : A) (l : list B) : result A :=
  match l with
  | [] => Ok a
  | b :: l' => a' <- f a b ;; foldM f a' l'
  end.

(** ** Python values that reach a [+] in the modelled code *)

Inductive pyval : Type :=
| PyInt (z : Z)
| PyStr (s : string).

(** [==] between an integer frame number and a value. *)
Definition py_int_eq (a : Z) (v : pyval) : bool :=
  match v with
  | PyInt b => a =? b
  | PyStr _ => false
  end.

(** [s + v] with [s] a [str]: concatenation, or [TypeError] for an [int]. *)
Definition py_str_add (s : string) (v : pyval) : result string :=
  match v with
  | PyStr t => Ok (s ++ t)%string
  | PyInt _ => Raise TypeError
  end.

(** Numbers of the tube bounds: an [int], or [float("inf")] and its negation. *)
Inductive pynum : Type :=
| Num (z : Z)
| PosInf
| NegInf.

(** [a < b] for an [int] [a]. *)
Definition int_lt_num (a : Z) (b : pynum) : bool :=
  match b with
  | Num z => a <? z
  | PosInf => true
  | NegInf => false
  end.

(** [a - b] for an [int] [a]. *)
Definition int_sub_num (a : Z) (b : pynum) : pynum :=
  match b with
  | Num z => Num (a - z)
  | PosInf => NegInf
  | NegInf => PosInf
  end.

(** [a >= m] for an [int] [m]. *)
Definition num_ge_int (a : pynum) (m : Z) : bool :=
  match a with
  | Num z => m <=? z
  | PosInf => true
  | NegInf => false
  end.

(** ** Data model *)

(** A [uint8] image of two dimensions, row by row. *)
Definition image := list (list Z).

Definition point := (Z * Z)%type.

Record InstanceFrameData : Type := mkInstanceFrameData {
  frame_nr : Z;
  segm_mask : image;
  segm_bbox : list point;
  segm_rbox : list point
}.

Record Instance : Type := mkInstance {
  instance_id : Z;
  instance_of : string;
  frames : list InstanceFrameData
}.

(** [Instance.__init__] *)
Definition Instance_init (id : Z) (label : string) (first_FrameData : InstanceFrameData)
  : Instance :=
  mkInstance id label [first_FrameData].

Record InstanceDB : Type := mkInstanceDB {
  _instances : list Instance;
  _instanceid_cnt : Z
}.

(** [InstanceDB.__init__]: the counter starts from the class attribute [0]. *)
Definition InstanceDB_init (instances : option (list Instance)) : InstanceDB :=
  mkInstanceDB (match instances with None => [] | Some l => l end) 0.

(** [x in l] on a list of integers. *)
Definition py_in (x : Z) (l : list Z) : bool := existsb (Z.eqb x) l.

(** ** Instance *)

Definition has_frame (i : Instance) (n : Z) : bool :=
  existsb (fun fr => frame_nr fr =? n) (frames i).

(** [Instance.get_frame_with_nr].  The message of the [IndexError] is built
    first, left to right; its first [+] adds [frame_nr] to a [str].  The
    later operands are strings and their concatenation cannot fail. *)
Definition get_frame_with_nr (self : Instance) (n : pyval)
  : result InstanceFrameData :=
  match find (fun fr => py_int_eq (frame_nr fr) n) (frames self) with
  | Some fr => Ok fr
  | None =>
      _ <- py_str_add "could not find a frame with nr=" n ;;
      Raise IndexError
  end.

(** ** InstanceDB *)

Definition append_frame (i : Instance) (new_frame_data : InstanceFrameData) : Instance :=
  mkInstance (instance_id i) (instance_of i) (frames i ++ [new_frame_data]).

(** The loop of [append_frame_to_instance]: the instances after it, and [found]. *)
Fixpoint append_loop (id : Z) (new_frame_data : InstanceFrameData)
    (l : list Instance) : list Instance * bool :=
  match l with
  | [] => ([], false)
  | i :: r =>
      let (r', found) := append_loop id new_frame_data r in
      if instance_id i =? id
      then (append_frame i new_frame_data :: r', true)
      else (i :: r', found)
  end.

(** [InstanceDB.append_frame_to_instance]: the store afterwards (also when
    the call raises) and the outcome. *)
Definition append_frame_to_instance (self : InstanceDB) (id : Z)
    (new_frame_data : InstanceFrameData) (label : option string)
  : InstanceDB * result unit :=
  let (insts, found) := append_loop id new_frame_data (_instances self) in
  if found then (mkInstanceDB insts (_instanceid_cnt self), Ok tt)
  else match label with
       | Some l =>
           (mkInstanceDB (insts ++ [Instance_init id l new_frame_data])
                         (_instanceid_cnt self), Ok tt)
       | None => (mkInstanceDB insts (_instanceid_cnt self), Raise ValueError)
       end.

Definition frames_with_nr (i : Instance) (n : Z) : list InstanceFrameData :=
  filter (fun fr => frame_nr fr =? n) (frames i).

(** [InstanceDB.get_instance_ids_in_frame] *)
Definition get_instance_ids_in_frame (self : InstanceDB) (n : Z) : list Z :=
  flat_map (fun i => map (fun _ => instance_id i) (frames_with_nr i n))
           (_instances self).

(** [InstanceDB.get_instances_in_frame] *)
Definition get_instances_in_frame (self : InstanceDB) (n : Z) : list Instance :=
  flat_map (fun i => map (fun _ => i) (frames_with_nr i n)) (_instances self).

(** [InstanceDB.get_instances_of_type_in_frame] *)
Definition get_instances_of_type_in_frame (self : InstanceDB) (label : string)
    (n : Z) : list Instance :=
  flat_map (fun i => if String.eqb (instance_of i) label
                     then map (fun _ => i) (frames_with_nr i n)
                     else [])
           (_instances self).

(** [InstanceDB.get_unused_instance_id] *)
Definition get_unused_instance_id (self : InstanceDB) : InstanceDB * Z :=
  let c := _instanceid_cnt self + 1 in
  (mkInstanceDB (_instances self) c, c).

(** [InstanceDB.clean]: the store afterwards and the deleted instances. *)
Definition clean (self : InstanceDB) (n : Z) : InstanceDB * list Instance :=
  let keep_ids := get_instance_ids_in_frame self n in
  let delete_instances :=
    filter (fun i => negb (py_in (instance_id i) keep_ids)) (_instances self) in
  (mkInstanceDB
     (filter (fun i => py_in (instance_id i) keep_ids) (_instances self))
     (_instanceid_cnt self),
   delete_instances).

(** ** helper_functions: the matching score *)

(** An elementwise operation of numpy on two arrays of one dimension; [None]
    when the lengths differ (numpy then broadcasts or refuses, which the
    tracker never relies on). *)
Fixpoint zip_with {A B C} (f : A -> B -> C) (a : list A) (b : list B)
  : option (list C) :=
  match a, b with
  | [], [] => Some []
  | x :: a', y :: b' =>
      match zip_with f a' b' with
      | Some r => Some (f x y :: r)
      | None => None
      end
  | _, _ => None
  end.

(** The same on arrays of two dimensions. *)
Fixpoint zip_with2 {A B C} (f : A -> B -> C) (a : list (list A)) (b : list (list B))
  : option (list (list C)) :=
  match a, b with
  | [], [] => Some []
  | r :: a', s :: b' =>
      match zip_with f r s, zip_with2 f a' b' with
      | Some t, Some u => Some (t :: u)
      | _, _ => None
      end
  | _, _ => None
  end.

(** [img1 == img2] *)
Definition np_equal (img1 img2 : image) : option (list (list bool)) :=
  zip_with2 Z.eqb img1 img2.

(** [np.bitwise_and] of a [bool] array and a [uint8] array: the booleans are
    promoted to [uint8], [True] to 1. *)
Definition np_bitwise_and (m : list (list bool)) (img : image) : option image :=
  zip_with2 (fun (b : bool) x => Z.land (if b then 1 else 0) x) m img.

(** [np.count_nonzero] *)
Definition np_count_nonzero (img : image) : Z :=
  Z.of_nat (length (filter (fun x => negb (x =? 0)) (concat img))).

(** [get_equal_white_pixel_count] *)
Definition get_equal_white_pixel_count (img1 img2 : image) : option Z :=
  match np_equal img1 img2 with
  | Some m =>
      match np_bitwise_and m img1 with
      | Some a => Some (np_count_nonzero a)
      | None => None
      end
  | None => None
  end.

(** The score in the words of the specification: the number of pixel
    positions that are foreground (nonzero) in both masks. *)
Fixpoint both_foreground_row (r s : list Z) : Z :=
  match r, s with
  | x :: r', y :: s' =>
      (if negb (x =? 0) && negb (y =? 0) then 1 else 0) + both_foreground_row r' s'
  | _, _ => 0
  end.

Fixpoint both_foreground_count (a b : image) : Z :=
  match a, b with
  | r :: a', s :: b' => both_foreground_row r s + both_foreground_count a' b'
  | _, _ => 0
  end.

Definition binary_row (r : list Z) : Prop := Forall (fun x => x = 0 \/ x = 255) r.
Definition binary_mask (a : image) : Prop := Forall binary_row a.

Definition same_shape (a b : image) : Prop :=
  Forall2 (fun r s : list Z => length r = length s) a b.

(** ** Tube *)

Record Tube : Type := mkTube {
  label : string;
  tube_id : Z;
  min_x : pynum;
  min_y : pynum;
  max_x : Z;
  max_y : Z;
  min_frame : pynum;
  max_frame : Z
}.

(** The bounds while [create_from_instance] runs; they start from the class
    attributes. *)
Record bounds : Type := mkBounds {
  b_min_x : pynum;
  b_min_y : pynum;
  b_max_x : Z;
  b_max_y : Z;
  b_min_frame : pynum;
  b_max_frame : Z
}.

Definition bounds_init : bounds := mkBounds PosInf PosInf 0 0 PosInf 0.

Definition lower (v : Z) (cur : pynum) : pynum :=
  if int_lt_num v cur then Num v else cur.

Definition upper (v : Z) (cur : Z) : Z :=
  if v >? cur then v else cur.

(** The body of the inner loop, for one corner. *)
Definition scan_point (b : bounds) (p : point) : bounds :=
  mkBounds (lower (fst p) (b_min_x b)) (lower (snd p) (b_min_y b))
           (upper (fst p) (b_max_x b)) (upper (snd p) (b_max_y b))
           (b_min_frame b) (b_max_frame b).

(** The body of the outer loop, for one frame. *)
Definition scan_frame (b : bounds) (fr : InstanceFrameData) : bounds :=
  fold_left scan_point (segm_bbox fr)
    (mkBounds (b_min_x b) (b_min_y b) (b_max_x b) (b_max_y b)
              (lower (frame_nr fr) (b_min_frame b))
              (upper (frame_nr fr) (b_max_frame b))).

(** [Tube.__init__], that is [Tube.create_from_instance] on a new tube. *)
Definition Tube_init (instance : Instance) : Tube :=
  let b := fold_left scan_frame (frames instance) bounds_init in
  mkTube (instance_of instance) (instance_id instance)
         (b_min_x b) (b_min_y b) (b_max_x b) (b_max_y b)
         (b_min_frame b) (b_max_frame b).

(** The condition of the list comprehension that filters [tubeslist]. *)
Definition keep (tube : Tube) (MIN_TUBE_LENGTH : Z) : bool :=
  num_ge_int (int_sub_num (max_frame tube) (min_frame tube)) MIN_TUBE_LENGTH.

Definition filter_tubes (MIN_TUBE_LENGTH : Z) (tubeslist : list Tube) : list Tube :=
  filter (fun tube => keep tube MIN_TUBE_LENGTH) tubeslist.

(** ** The tracker loop of generate_video *)

(** [sorted(IOUs, key=lambda x: x[1], reverse=True)]: Python's sort is
    stable, also with [reverse=True]: pairs of equal score keep the order
    they had in [IOUs].  An insertion sort with the same result. *)
Fixpoint insert_desc (x : Z * Z) (l : list (Z * Z)) : list (Z * Z) :=
  match l with
  | [] => [x]
  | y :: l' => if snd x <? snd y then y :: insert_desc x l' else x :: y :: l'
  end.

Fixpoint sorted_desc (l : list (Z * Z)) : list (Z * Z) :=
  match l with
  | [] => []
  | x :: l' => insert_desc x (sorted_desc l')
  end.

(** One contour of one label, as the loop body receives it. *)
Record Detection : Type := mkDetection {
  det_label : string;
  inst_segm_mask : image;
  inst_segm_bbox : list point;
  inst_segm_rbox : list point
}.

Definition score_of (r : option Z) : result Z :=
  match r with
  | Some c => Ok c
  | None => Raise ShapeMismatch
  end.

(** The list comprehension [IOUs]. *)
Definition IOUs_of (instancesInPrevFrame : list Instance) (frameNr : Z)
    (mask : image) : result (list (Z * Z)) :=
  mapM (fun prev_inst =>
          fr <- get_frame_with_nr prev_inst (PyInt (frameNr - 1)) ;;
          c <- score_of (get_equal_white_pixel_count (segm_mask fr) mask) ;;
          Ok (instance_id prev_inst, c))
       instancesInPrevFrame.

(** The choice of [instanceid] for one detection. *)
Definition choose_instanceid (IDB : InstanceDB) (frameNr : Z) (d : Detection)
  : result (InstanceDB * Z) :=
  let instancesInPrevFrame :=
    get_instances_of_type_in_frame IDB (det_label d) (frameNr - 1) in
  if (0 <? Z.of_nat (length instancesInPrevFrame)) then
    IOUs <- IOUs_of instancesInPrevFrame frameNr (inst_segm_mask d) ;;
    match sorted_desc IOUs with
    | (best_previd, best_iou) :: _ =>
        let curInstancesInFrame := get_instance_ids_in_frame IDB frameNr in
        if (best_iou >? 0) && negb (py_in best_previd curInstancesInFrame)
        then Ok (IDB, best_previd)
        else Ok (get_unused_instance_id IDB)
    | [] => Raise IndexError
    end
  else Ok (get_unused_instance_id IDB).

(** The body of the loop over the contours: choose the id and commit. *)
Definition track_detection (IDB : InstanceDB) (frameNr : Z) (d : Detection)
  : result InstanceDB :=
  '(IDB1, instanceid) <- choose_instanceid IDB frameNr d ;;
  let (IDB2, r) :=
    append_frame_to_instance IDB1 instanceid
      (mkInstanceFrameData frameNr (inst_segm_mask d) (inst_segm_bbox d)
                           (inst_segm_rbox d))
      (Some (det_label d)) in
  _ <- r ;; Ok IDB2.

(** All detections of one frame, in the order the loops visit them. *)
Definition track_frame (IDB : InstanceDB) (frameNr : Z) (dets : list Detection)
  : result InstanceDB :=
  foldM (fun db d => track_detection db frameNr d) IDB dets.

(** The state of the main loop. *)
Record loop_state : Type := mkLoop {
  IDB : InstanceDB;
  frameNr : Z;
  tubeslist : list Tube
}.

Definition loop_init : loop_state := mkLoop (InstanceDB_init None) 0 [].

(** One iteration of the main loop (with [SAVE_VIDEO_TUBES] on). *)
Definition loop_body (st : loop_state) (dets : list Detection) : result loop_state :=
  db <- track_frame (IDB st) (frameNr st) dets ;;
  let (db', deletedInstances) := clean db (frameNr st) in
  Ok (mkLoop db' (frameNr st + 1) (tubeslist st ++ map Tube_init deletedInstances)).

Definition main_loop (video : list (list Detection)) : result loop_state :=
  foldM loop_body loop_init video.

(** The [clean] after the loop and the filter on the tubes (with
    [SAVE_VIDEO_TUBES] on). *)
Definition finish (MIN_TUBE_LENGTH : Z) (st : loop_state) : loop_state * list Tube :=
  let (db', deletedInstances) := clean (IDB st) (frameNr st) in
  let all := tubeslist st ++ map Tube_init deletedInstances in
  (mkLoop db' (frameNr st) all, filter_tubes MIN_TUBE_LENGTH all).

(** ** Calls on a store, for the properties of the id counter *)

Inductive call : Type :=
| CallGetUnused
| CallAppend (id : Z) (fr : InstanceFrameData) (label : option string)
| CallClean (n : Z).

(** The store after a call and the id it returned, if it was
    [get_unused_instance_id]. *)
Definition do_call (db : InstanceDB) (c : call) : InstanceDB * list Z :=
  match c with
  | CallGetUnused => let (db', id) := get_unused_instance_id db in (db', [id])
  | CallAppend id fr l => (fst (append_frame_to_instance db id fr l), [])
  | CallClean n => (fst (clean db n), [])
  end.

(** The ids returned by a sequence of calls, oldest first. *)
Fixpoint returned_ids (db : InstanceDB) (cs : list call) : list Z :=
  match cs with
  | [] => []
  | c :: cs' => let (db', ids) := do_call db c in ids ++ returned_ids db' cs'
  end.

(** The store after a sequence of calls. *)
Fixpoint store_after (db : InstanceDB) (cs : list call) : InstanceDB :=
  match cs with
  | [] => db
  | c :: cs' => store_after (fst (do_call db c)) cs'
  end.

(** ** More of the store, the frames of a tube and the drawing loop *)

(** [InstanceDB.get_instance_by_id], also [InstanceDB.__getitem__]: the
    first instance with the id, [None] when the loop ends without one. *)
Definition get_instance_by_id (self : InstanceDB) (id : Z) : option Instance :=
  find (fun i => instance_id i =? id) (_instances self).

(** [InstanceDB.__len__] *)
Definition InstanceDB_len (self : InstanceDB) : Z :=
  Z.of_nat (length (_instances self)).

(** [range(lo, hi)] *)
Definition py_range (lo hi : Z) : list Z :=
  map (fun k => lo + Z.of_nat k) (seq 0 (Z.to_nat (hi - lo))).

(** [l[k]] on a list: a negative index counts from the end. *)
Definition py_index {A} (l : list A) (k : Z) : result A :=
  let n := Z.of_nat (length l) in
  let j := if k <? 0 then k + n else k in
  if (0 <=? j) && (j <? n)
  then match nth_error l (Z.to_nat j) with
       | Some a => Ok a
       | None => Raise IndexError
       end
  else Raise IndexError.

(** [range(tube.min_frame, tube.max_frame+1)]: a [float] bound is refused. *)
Definition tube_frame_range (tube : Tube) : result (list Z) :=
  match min_frame tube with
  | Num lo => Ok (py_range lo (max_frame tube + 1))
  | _ => Raise TypeError
  end.

(** The entries of [folder_dict['_img']] that the loop over the frames of a
    tube reads, in order. *)
Definition tube_frame_paths {A} (imgs : list A) (tube : Tube) : result (list A) :=
  idxs <- tube_frame_range tube ;;
  mapM (py_index imgs) idxs.

(** [SAVE_VIDEO_TUBES] after the test on the number of frames: it is
    configured [True] and switched off for a recording of fewer than
    [MIN_TUBE_LENGTH] frames. *)
Definition SAVE_VIDEO_TUBES (frames MIN_TUBE_LENGTH : Z) : bool :=
  negb (frames <? MIN_TUBE_LENGTH).

(** The frame data that the loop body commits for a detection. *)
Definition det_record (frameNr : Z) (d : Detection) : InstanceFrameData :=
  mkInstanceFrameData frameNr (inst_segm_mask d) (inst_segm_bbox d)
                      (inst_segm_rbox d).

(** What the drawing loop looks up, per instance of
    [get_instances_in_frame]: its frame data for the frame and its label. *)
Definition drawn (IDB : InstanceDB) (frameNr : Z)
  : list (result InstanceFrameData * string) :=
  map (fun instance => (get_frame_with_nr instance (PyInt frameNr),
                        instance_of instance))
      (get_instances_in_frame IDB frameNr).

(** ** Vocabulary of the properties *)

(** Some live instance has the id [id]. *)
Definition is_live (self : InstanceDB) (id : Z) : bool :=
  existsb (fun i => instance_id i =? id) (_instances self).

(** What the loop of [append_frame_to_instance] does to one instance. *)
Definition append_where (id : Z) (fr : InstanceFrameData) (i : Instance) : Instance :=
  if instance_id i =? id then append_frame i fr else i.

(** No two live instances share an id. *)
Definition distinct_ids (self : InstanceDB) : Prop :=
  NoDup (map instance_id (_instances self)).

(** The frame numbers recorded in the store are all below [n]. *)
Definition recorded_before (self : InstanceDB) (n : Z) : Prop :=
  forall i fr, In i (_instances self) -> In fr (frames i) -> frame_nr fr < n.

(** The eviction property as the specification words it: [clean n] returns
    exactly the live instances without a frame at [n], and the live
    instances afterwards are exactly those with one. *)
Definition clean_partitions_by_frame (self : InstanceDB) (n : Z) : Prop :=
  (forall i, In i (snd (clean self n))
             <-> In i (_instances self) /\ has_frame i n = false)
  /\ (forall i, In i (_instances (fst (clean self n)))
                <-> In i (_instances self) /\ has_frame i n = true).

(** A foreground pixel. *)
Definition nonzero (x : Z) : bool := negb (x =? 0).

(** The order of the sorted list: scores descend. *)
Definition score_ge (p q : Z * Z) : Prop := snd q <= snd p.

(** The score of one candidate, as the comprehension [IOUs] computes it. *)
Definition candidate_score (frameNr : Z) (mask : image) (prev_inst : Instance)
  : result Z :=
  fr <- get_frame_with_nr prev_inst (PyInt (frameNr - 1)) ;;
  score_of (get_equal_white_pixel_count (segm_mask fr) mask).

(** The running minimum and the running maximum over a list of values. *)
Definition lowers (vs : list Z) (cur : pynum) : pynum :=
  fold_left (fun c v => lower v c) vs cur.

Definition uppers (vs : list Z) (cur : Z) : Z :=
  fold_left (fun c v => upper v c) vs cur.

(** All corners of all boxes of an instance, in the order of the scan. *)
Definition corners (i : Instance) : list point := flat_map segm_bbox (frames i).

(** [m] is the least, or the greatest, element of [l]. *)
Definition is_min (m : Z) (l : list Z) : Prop := In m l /\ Forall (fun v => m <= v) l.
Definition is_max (m : Z) (l : list Z) : Prop := In m l /\ Forall (fun v => v <= m) l.

(** The corners that the loop body builds from the rectangle [x, y, w, h]
    of [cv2.boundingRect]. *)
Definition bounding_rect_corners (x y w h : Z) : list point :=
  [(x, y); (x, y + h); (x + w, y + h); (x + w, y)].

(** Frame data as the tracker records it: the frame number is counted from
    0 and the box is that of a rectangle in the image, whose corner
    [(x, y)] has no negative coordinate. *)
Definition recorded_by_tracker (fr : InstanceFrameData) : Prop :=
  0 <= frame_nr fr
  /\ exists x y w h, 0 <= x /\ 0 <= y /\ 0 <= w /\ 0 <= h
                     /\ segm_bbox fr = bounding_rect_corners x y w h.

(** The bounds of a tube as the specification words them: [min_frame] and
    [max_frame] are the least and the greatest frame number, and each side
    of the box is the least or greatest coordinate of a corner, so it is
    attained by some corner. *)
Definition tube_bounds_tight (i : Instance) : Prop :=
  let t := Tube_init i in
  (exists lo, min_frame t = Num lo /\ is_min lo (map frame_nr (frames i)))
  /\ is_max (max_frame t) (map frame_nr (frames i))
  /\ (exists x, min_x t = Num x /\ is_min x (map fst (corners i)))
  /\ is_max (max_x t) (map fst (corners i))
  /\ (exists y, min_y t = Num y /\ is_min y (map snd (corners i)))
  /\ is_max (max_y t) (map snd (corners i)).

(** [max_frame - min_frame >= m]: it needs a numeric [min_frame], since the
    difference is minus infinity when [min_frame] is still [float("inf")]. *)
Definition duration_at_least (tube : Tube) (m : Z) : Prop :=
  exists lo, min_frame tube = Num lo /\ max_frame tube - lo >= m.

(** What holds of the store while frame [f] is processed: live ids are
    pairwise distinct and were all handed out by the counter, no instance
    has two frames numbered [f], and no frame is numbered above [f]. *)
Record tracker_inv (db : InstanceDB) (f : Z) : Prop := mkTrackerInv {
  inv_distinct : distinct_ids db;
  inv_cnt : Forall (fun i => instance_id i <= _instanceid_cnt db) (_instances db);
  inv_once : Forall (fun i => (length (frames_with_nr i f) <= 1)%nat) (_instances db);
  inv_upto : forall i fr, In i (_instances db) -> In fr (frames i) -> frame_nr fr <= f
}.

(** An image of [h] rows of [w] pixels. *)
Definition shape (h w : nat) (m : image) : Prop :=
  length m = h /\ Forall (fun r => length r = w) m.

(** Every mask recorded in the store has [h] rows of [w] pixels. *)
Definition stored_shape (h w : nat) (db : InstanceDB) : Prop :=
  forall i fr, In i (_instances db) -> In fr (frames i) -> shape h w (segm_mask fr).

(** [n] consecutive integers from [a]. *)
Definition consecutive (a : Z) (n : nat) : list Z :=
  map (fun k => a + Z.of_nat k) (seq 0 n).

(** The frame numbers of an instance, in the order of its frames. *)
Definition frame_numbers (i : Instance) : list Z := map frame_nr (frames i).

(** The history of an instance has no gap and ends at frame [last]. *)
Definition history_until (last : Z) (i : Instance) : Prop :=
  exists a n, 0 <= a /\ frame_numbers i = consecutive a (S n)
              /\ a + Z.of_nat n = last.

(** A tube spans frames [a .. a + n], all below [f]. *)
Definition tube_span (f : Z) (t : Tube) : Prop :=
  exists a n, 0 <= a /\ min_frame t = Num a /\ max_frame t = a + Z.of_nat n
              /\ a + Z.of_nat n < f.

(** The frame data numbered [f] in the store, each with the label of its
    instance, in the order of the store. *)
Definition records_at (db : InstanceDB) (f : Z) : list (InstanceFrameData * string) :=
  flat_map (fun i => map (fun fr => (fr, instance_of i)) (frames_with_nr i f))
           (_instances db).

(** The instances that detections open when none of them continues an
    id: the next values of the counter, in the order of the detections. *)
Fixpoint fresh_instances (cnt f : Z) (dets : list Detection) : list Instance :=
  match dets with
  | [] => []
  | d :: dets' =>
      Instance_init (cnt + 1) (det_label d) (det_record f d)
        :: fresh_instances (cnt + 1) f dets'
  end.

(** The score for images of any gray values: the positions where the two
    pixels are equal and odd. *)
Fixpoint equal_odd_row (r s : list Z) : Z :=
  match r, s with
  | x :: r', y :: s' =>
      (if (x =? y) && Z.odd x then 1 else 0) + equal_odd_row r' s'
  | _, _ => 0
  end.

Fixpoint equal_odd_count (a b : image) : Z :=
  match a, b with
  | r :: a', s :: b' => equal_odd_row r s + equal_odd_count a' b'
  | _, _ => 0
  end.

(** The number of pixels of an image. *)
Definition pixels (a : image) : Z := Z.of_nat (length (concat a)).

(** What holds while the detections of frame [f] are committed, [done]
    being those committed so far and [tubes] the tubes built before. *)
Record frame_inv (tubes : list Tube) (f : Z) (done : list Detection)
    (db : InstanceDB) : Prop := mkFrameInv {
  fi_tracker : tracker_inv db f;
  fi_hist : Forall (fun i => history_until (f - 1) i \/ history_until f i)
                   (_instances db);
  fi_cnt : 0 <= _instanceid_cnt db;
  fi_ids : Permutation (map tube_id tubes ++ map instance_id (_instances db))
                       (consecutive 1 (Z.to_nat (_instanceid_cnt db)));
  fi_drawn : Permutation (records_at db f)
                         (map (fun d => (det_record f d, det_label d)) done)
}.

(** What holds of the state of the main loop before each frame. *)
Record loop_inv (st : loop_state) : Prop := mkLoopInv {
  li_frame : 0 <= frameNr st;
  li_tracker : tracker_inv (IDB st) (frameNr st);
  li_hist : Forall (history_until (frameNr st - 1)) (_instances (IDB st));
  li_tubes : Forall (tube_span (frameNr st)) (tubeslist st);
  li_cnt : 0 <= _instanceid_cnt (IDB st);
  li_ids : Permutation (map tube_id (tubeslist st)
                        ++ map instance_id (_instances (IDB st)))
                       (consecutive 1 (Z.to_nat (_instanceid_cnt (IDB st))))
}.

(** * Properties *)

(** ** Results *)

Lemma bind_Ok {A B} (r : result A) (k : A -> result B) (b : B) :
  bind r k = Ok b -> exists a, r = Ok a /\ k a = Ok b.
Proof.
  destruct r as [a|e]; simpl; intros H; [eauto | discriminate].
Qed.

Lemma mapM_Ok_Forall2 {A B} (f : A -> result B) (l : list A) (bs : list B) :
  mapM f l = Ok bs -> Forall2 (fun a b => f a = Ok b) l bs.
Proof.
  revert bs; induction l as [|a l IH]; simpl; intros bs H.
  - inversion H; constructor.
  - apply bind_Ok in H as (b & Hb & H).
    apply bind_Ok in H as (bs' & Hbs & H).
    inversion H; subst; constructor; auto.
Qed.

Lemma py_in_true (x : Z) (l : list Z) : py_in x l = true <-> In x l.
Proof.
  unfold py_in; rewrite existsb_exists; split.
  - intros (y & Hy & E); apply Z.eqb_eq in E; subst; assumption.
  - intros H; exists x; split; [assumption | apply Z.eqb_refl].
Qed.

Lemma py_in_false (x : Z) (l : list Z) : py_in x l = false <-> ~ In x l.
Proof.
  rewrite <- py_in_true; destruct (py_in x l); split; congruence.
Qed.

(** ** The store: appending a frame *)

Lemma append_loop_eq (id : Z) (fr : InstanceFrameData) (l : list Instance) :
  append_loop id fr l
  = (map (append_where id fr) l, existsb (fun i => instance_id i =? id) l).
Proof.
  induction l as [|i r IH]; simpl; [reflexivity|].
  rewrite IH; unfold append_where.
  destruct (instance_id i =? id); reflexivity.
Qed.

Lemma append_where_id (id : Z) (fr : InstanceFrameData) (i : Instance) :
  instance_id (append_where id fr i) = instance_id i.
Proof. unfold append_where; destruct (_ =? _); reflexivity. Qed.

Lemma append_where_label (id : Z) (fr : InstanceFrameData) (i : Instance) :
  instance_of (append_where id fr i) = instance_of i.
Proof. unfold append_where; destruct (_ =? _); reflexivity. Qed.

Lemma map_append_where_absent (id : Z) (fr : InstanceFrameData) (l : list Instance) :
  existsb (fun i => instance_id i =? id) l = false ->
  map (append_where id fr) l = l.
Proof.
  induction l as [|i r IH]; simpl; [reflexivity|].
  intros H; apply orb_false_iff in H as [Hi Hr].
  unfold append_where at 1; rewrite Hi, IH by assumption; reflexivity.
Qed.

Lemma append_frame_to_instance_eq (self : InstanceDB) (id : Z)
    (fr : InstanceFrameData) (lbl : option string) :
  append_frame_to_instance self id fr lbl
  = if is_live self id
    then (mkInstanceDB (map (append_where id fr) (_instances self))
                       (_instanceid_cnt self), Ok tt)
    else match lbl with
         | Some l => (mkInstanceDB (_instances self ++ [Instance_init id l fr])
                                   (_instanceid_cnt self), Ok tt)
         | None => (self, Raise ValueError)
         end.
Proof.
  unfold append_frame_to_instance, is_live; rewrite append_loop_eq.
  destruct (existsb _ _) eqn:E; [reflexivity|].
  rewrite map_append_where_absent by assumption.
  destruct lbl; [reflexivity|]; destruct self; reflexivity.
Qed.

(** C2.  [append_frame_to_instance id fr lbl]: when an instance with [id] is
    live the frame is appended to the frames of the instances with that id
    and nothing else changes, whatever [lbl] is; when none is live and a
    label is given, a new instance with that id, that label and [fr] as its
    only frame is added at the end; [ValueError] is raised exactly when
    none is live and no label is given, and the store is then unchanged. *)
Theorem append_frame_to_instance_contract (self : InstanceDB) (id : Z)
    (fr : InstanceFrameData) (lbl : option string) :
  (is_live self id = true ->
     append_frame_to_instance self id fr lbl
     = (mkInstanceDB (map (fun i => if instance_id i =? id
                                    then mkInstance (instance_id i) (instance_of i)
                                                    (frames i ++ [fr])
                                    else i) (_instances self))
                     (_instanceid_cnt self), Ok tt))
  /\ (forall l, is_live self id = false -> lbl = Some l ->
     append_frame_to_instance self id fr lbl
     = (mkInstanceDB (_instances self ++ [mkInstance id l [fr]])
                     (_instanceid_cnt self), Ok tt))
  /\ (snd (append_frame_to_instance self id fr lbl) = Raise ValueError
      <-> is_live self id = false /\ lbl = None)
  /\ (snd (append_frame_to_instance self id fr lbl) = Raise ValueError ->
      fst (append_frame_to_instance self id fr lbl) = self).
Proof.
  rewrite append_frame_to_instance_eq.
  destruct (is_live self id) eqn:L; destruct lbl as [l0|]; simpl;
    (split; [| split; [| split]]);
    try discriminate; try (intros; reflexivity);
    try (intros l _ E; inversion E; reflexivity);
    try (split; [discriminate | intros [? ?]; discriminate]).
  split; auto.
Qed.

(** An unknown id without a label: [ValueError], and the store as it was. *)
Example append_frame_to_instance_unknown_id :
  let db := mkInstanceDB [mkInstance 3 "kicking" [mkInstanceFrameData 0 [] [] []]] 3 in
  append_frame_to_instance db 4 (mkInstanceFrameData 1 [] [] []) None
  = (db, Raise ValueError).
Proof. reflexivity. Qed.

(** C10.  When an instance with id [i] is live, appending with any label
    argument (none, the instance's own, or another) succeeds, appends the
    frame to it and keeps the ids and labels of all live instances: the
    label argument is not compared with the label of the instance. *)
Theorem append_to_live_ignores_label (self : InstanceDB) (inst : Instance)
    (fr : InstanceFrameData) (lbl : option string) :
  In inst (_instances self) ->
  let after := append_frame_to_instance self (instance_id inst) fr lbl in
  snd after = Ok tt
  /\ In (mkInstance (instance_id inst) (instance_of inst) (frames inst ++ [fr]))
        (_instances (fst after))
  /\ map instance_id (_instances (fst after)) = map instance_id (_instances self)
  /\ map instance_of (_instances (fst after)) = map instance_of (_instances self)
  /\ fst after = fst (append_frame_to_instance self (instance_id inst) fr None).
Proof.
  intros Hin after; subst after.
  assert (L : is_live self (instance_id inst) = true).
  { unfold is_live; apply existsb_exists; exists inst; split;
      [assumption | apply Z.eqb_refl]. }
  rewrite !append_frame_to_instance_eq, L; simpl.
  repeat split.
  - apply in_map_iff; exists inst; split; [|assumption].
    unfold append_where; rewrite Z.eqb_refl; reflexivity.
  - rewrite map_map; apply map_ext; intros; apply append_where_id.
  - rewrite map_map; apply map_ext; intros; apply append_where_label.
Qed.

Lemma append_to_live_ignores_label_witness :
  let a := mkInstance 3 "kicking" [mkInstanceFrameData 0 [] [] []] in
  let db := mkInstanceDB [a] 3 in
  let after := append_frame_to_instance db 3 (mkInstanceFrameData 1 [] [] [])
                                        (Some "walking"%string) in
  snd after = Ok tt
  /\ In (mkInstance 3 "kicking" [mkInstanceFrameData 0 [] [] [];
                                 mkInstanceFrameData 1 [] [] []])
        (_instances (fst after))
  /\ map instance_id (_instances (fst after)) = [3]
  /\ map instance_of (_instances (fst after)) = ["kicking"%string]
  /\ fst after = fst (append_frame_to_instance db 3 (mkInstanceFrameData 1 [] [] []) None).
Proof.
  exact (append_to_live_ignores_label
           (mkInstanceDB [mkInstance 3 "kicking" [mkInstanceFrameData 0 [] [] []]] 3)
           (mkInstance 3 "kicking" [mkInstanceFrameData 0 [] [] []])
           (mkInstanceFrameData 1 [] [] []) (Some "walking"%string)
           (or_introl eq_refl)).
Defined.

(** ** The store: the id counter *)

Lemma append_frame_to_instance_cnt (self : InstanceDB) (id : Z)
    (fr : InstanceFrameData) (lbl : option string) :
  _instanceid_cnt (fst (append_frame_to_instance self id fr lbl))
  = _instanceid_cnt self.
Proof.
  rewrite append_frame_to_instance_eq.
  destruct (is_live self id); [reflexivity|]; destruct lbl; reflexivity.
Qed.

Lemma do_call_cnt (db : InstanceDB) (c : call) :
  _instanceid_cnt db <= _instanceid_cnt (fst (do_call db c))
  /\ Forall (fun id => _instanceid_cnt db < id
                       /\ id <= _instanceid_cnt (fst (do_call db c)))
            (snd (do_call db c)).
Proof.
  destruct c as [|id fr l|n]; simpl.
  - split; [lia|]; constructor; [lia | constructor].
  - rewrite append_frame_to_instance_cnt; split; [lia | constructor].
  - split; [lia | constructor].
Qed.

Lemma returned_ids_above (cs : list call) : forall db : InstanceDB,
  Forall (fun id => _instanceid_cnt db < id) (returned_ids db cs).
Proof.
  induction cs as [|c cs IH]; intros db; simpl; [constructor|].
  destruct (do_call_cnt db c) as [Hle Hids].
  destruct (do_call db c) as [db' ids]; simpl in *.
  apply Forall_app; split.
  - eapply Forall_impl; [|exact Hids]; simpl; intros; lia.
  - eapply Forall_impl; [|apply (IH db')]; simpl; intros; lia.
Qed.

Lemma returned_ids_increasing (cs : list call) : forall db : InstanceDB,
  StronglySorted Z.lt (returned_ids db cs).
Proof.
  induction cs as [|c cs IH]; intros db; simpl; [constructor|].
  pose proof (do_call_cnt db c) as [_ Hids].
  pose proof (returned_ids_above cs (fst (do_call db c))) as Hab.
  specialize (IH (fst (do_call db c))).
  destruct c as [|id fr l|n]; simpl in *; try assumption.
  constructor; assumption.
Qed.

Lemma StronglySorted_lt_NoDup (l : list Z) : StronglySorted Z.lt l -> NoDup l.
Proof.
  induction 1 as [|x l _ IH Hx]; constructor; [|assumption].
  intros Hin; rewrite Forall_forall in Hx; specialize (Hx x Hin); lia.
Qed.

(** C8.  The ids that [get_unused_instance_id] returns on one store, among
    any other calls ([append_frame_to_instance], [clean]): each is positive,
    each is less than every id returned after it, and none is returned
    twice. *)
Theorem get_unused_instance_id_monotone (instances : option (list Instance))
    (cs : list call) :
  let ids := returned_ids (InstanceDB_init instances) cs in
  Forall (fun id => 0 < id) ids
  /\ StronglySorted Z.lt ids
  /\ NoDup ids.
Proof.
  simpl; split; [|split].
  - apply (returned_ids_above cs (InstanceDB_init instances)).
  - apply returned_ids_increasing.
  - apply StronglySorted_lt_NoDup, returned_ids_increasing.
Qed.

(** The counter goes on after an eviction: the id of the evicted instance
    is not handed out again. *)
Example returned_ids_after_eviction :
  returned_ids (InstanceDB_init None)
    [CallGetUnused;
     CallAppend 1 (mkInstanceFrameData 0 [] [] []) (Some "kicking"%string);
     CallClean 1;
     CallGetUnused;
     CallGetUnused]
  = [1; 2; 3].
Proof. reflexivity. Qed.

(** ** The store: eviction *)

Lemma has_frame_frames_with_nr (i : Instance) (n : Z) :
  has_frame i n = true <-> frames_with_nr i n <> [].
Proof.
  unfold has_frame, frames_with_nr.
  induction (frames i) as [|fr l IH]; simpl.
  - split; [discriminate | congruence].
  - destruct (frame_nr fr =? n); simpl; [split; [discriminate | reflexivity] | exact IH].
Qed.

Lemma in_ids_in_frame (self : InstanceDB) (n x : Z) :
  In x (get_instance_ids_in_frame self n)
  <-> exists i, In i (_instances self) /\ instance_id i = x /\ has_frame i n = true.
Proof.
  unfold get_instance_ids_in_frame; rewrite in_flat_map; split.
  - intros (i & Hi & Hx); exists i; split; [assumption|].
    apply in_map_iff in Hx as (fr & Hid & Hfr); split; [assumption|].
    apply has_frame_frames_with_nr; intros E; rewrite E in Hfr; contradiction.
  - intros (i & Hi & Hid & Hf); exists i; split; [assumption|].
    apply has_frame_frames_with_nr in Hf.
    destruct (frames_with_nr i n) as [|fr l]; [congruence|].
    left; assumption.
Qed.

Lemma NoDup_map_inj {A B} (f : A -> B) (l : list A) (a b : A) :
  NoDup (map f l) -> In a l -> In b l -> f a = f b -> a = b.
Proof.
  induction l as [|x l IH]; simpl; [contradiction|].
  intros Hnd [Ha|Ha] [Hb|Hb] E; inversion Hnd as [|? ? Hx Hl]; subst.
  - reflexivity.
  - exfalso; apply Hx; rewrite E; apply in_map; assumption.
  - exfalso; apply Hx; rewrite <- E; apply in_map; assumption.
  - auto.
Qed.

Lemma keep_id_iff_has_frame (self : InstanceDB) (n : Z) (i : Instance) :
  distinct_ids self -> In i (_instances self) ->
  py_in (instance_id i) (get_instance_ids_in_frame self n) = has_frame i n.
Proof.
  intros Hnd Hi.
  destruct (has_frame i n) eqn:Hf.
  - apply py_in_true, in_ids_in_frame; exists i; auto.
  - apply py_in_false; intros Hin.
    apply in_ids_in_frame in Hin as (j & Hj & Hid & Hjf).
    assert (j = i) by (eapply NoDup_map_inj; eauto).
    subst; congruence.
Qed.

Lemma recorded_before_no_frame (self : InstanceDB) (n : Z) (i : Instance) :
  recorded_before self n -> In i (_instances self) -> frames_with_nr i n = [].
Proof.
  intros Hb Hi; unfold frames_with_nr.
  specialize (Hb i).
  induction (frames i) as [|fr l IH]; simpl; [reflexivity|].
  assert (frame_nr fr < n) by (apply Hb; [assumption | left; reflexivity]).
  destruct (Z.eqb_spec (frame_nr fr) n); [lia|].
  apply IH; intros fr' ? Hfr'; apply Hb; [assumption | right; assumption].
Qed.

Lemma recorded_before_ids_nil (self : InstanceDB) (n : Z) :
  recorded_before self n -> get_instance_ids_in_frame self n = [].
Proof.
  intros Hb; unfold get_instance_ids_in_frame.
  assert (H : forall i, In i (_instances self) -> frames_with_nr i n = [])
    by (intros; eapply recorded_before_no_frame; eassumption).
  revert H; generalize (_instances self); intros l.
  induction l as [|i l IH]; simpl; intros H; [reflexivity|].
  rewrite (H i) by (left; reflexivity); simpl.
  apply IH; intros; apply H; right; assumption.
Qed.

Lemma filter_all {A} (p : A -> bool) (l : list A) :
  (forall a, In a l -> p a = true) -> filter p l = l.
Proof.
  induction l as [|a l IH]; simpl; intros H; [reflexivity|].
  rewrite H by (left; reflexivity); f_equal; apply IH; intros; apply H; right; assumption.
Qed.

Lemma filter_none {A} (p : A -> bool) (l : list A) :
  (forall a, In a l -> p a = false) -> filter p l = [].
Proof.
  induction l as [|a l IH]; simpl; intros H; [reflexivity|].
  rewrite H by (left; reflexivity); apply IH; intros; apply H; right; assumption.
Qed.

(** When no recorded frame number reaches [n], [clean n] returns every live
    instance and leaves none. *)
Lemma clean_at_end (self : InstanceDB) (n : Z) :
  recorded_before self n ->
  clean self n = (mkInstanceDB [] (_instanceid_cnt self), _instances self).
Proof.
  intros Hb; unfold clean.
  rewrite recorded_before_ids_nil by assumption; simpl.
  rewrite (filter_none (fun i => py_in (instance_id i) [])) by reflexivity.
  rewrite (filter_all (fun i => negb (py_in (instance_id i) []))) by reflexivity.
  reflexivity.
Qed.

Lemma clean_by_frame (self : InstanceDB) (n : Z) :
  distinct_ids self -> clean_partitions_by_frame self n.
Proof.
  intros Hnd; unfold clean_partitions_by_frame, clean; cbn [fst snd _instances].
  split; intros i; rewrite filter_In; split; intros [Hi H]; (split; [assumption|]).
  - rewrite (@keep_id_iff_has_frame self n i Hnd Hi) in H.
    apply negb_true_iff in H; exact H.
  - rewrite (@keep_id_iff_has_frame self n i Hnd Hi), H; reflexivity.
  - rewrite <- (@keep_id_iff_has_frame self n i Hnd Hi); exact H.
  - rewrite (@keep_id_iff_has_frame self n i Hnd Hi); exact H.
Qed.

Lemma NoDup_map_filter {A B} (g : A -> B) (p : A -> bool) (l : list A) :
  NoDup (map g l) -> NoDup (map g (filter p l)).
Proof.
  induction l as [|a l IH]; simpl; intros H; [constructor|].
  inversion H as [|? ? Ha Hl]; subst.
  destruct (p a); simpl; [|auto].
  constructor; [|auto].
  intros Hin; apply Ha.
  apply in_map_iff in Hin as (b & E & Hb); apply filter_In in Hb as [Hb _].
  rewrite <- E; apply in_map; exact Hb.
Qed.

Lemma NoDup_snoc {A} (l : list A) (x : A) : NoDup l -> ~ In x l -> NoDup (l ++ [x]).
Proof.
  intros Hl Hx.
  apply Permutation_NoDup with (l := x :: l);
    [apply Permutation_cons_append | constructor; assumption].
Qed.

Lemma is_live_iff (db : InstanceDB) (id : Z) :
  is_live db id = true <-> In id (map instance_id (_instances db)).
Proof.
  unfold is_live; rewrite existsb_exists, in_map_iff; split.
  - intros (i & Hi & E); apply Z.eqb_eq in E; eauto.
  - intros (i & E & Hi); exists i; split; [exact Hi | apply Z.eqb_eq; exact E].
Qed.

(** The calls of the store keep the live ids pairwise distinct: a new
    instance is only made for an id that no live instance has. *)
Lemma do_call_distinct (db : InstanceDB) (c : call) :
  distinct_ids db -> distinct_ids (fst (do_call db c)).
Proof.
  unfold distinct_ids; intros Hd; destruct c as [|id fr lbl|n]; simpl.
  - exact Hd.
  - rewrite append_frame_to_instance_eq.
    destruct (is_live db id) eqn:L; simpl.
    + rewrite map_map, (map_ext _ instance_id) by (intros; apply append_where_id).
      exact Hd.
    + destruct lbl as [l|]; simpl; [|exact Hd].
      rewrite map_app; simpl; apply NoDup_snoc; [exact Hd|].
      intros Hin; apply is_live_iff in Hin; congruence.
  - apply NoDup_map_filter; exact Hd.
Qed.

Lemma store_after_distinct (cs : list call) : forall db : InstanceDB,
  distinct_ids db -> distinct_ids (store_after db cs).
Proof.
  induction cs as [|c cs IH]; simpl; intros db Hd; [exact Hd|].
  apply IH, do_call_distinct, Hd.
Qed.

(** C1.  On every store of the data model, where live instances have
    pairwise distinct ids, [clean n] returns exactly the live instances
    without a frame at [n] and leaves exactly those with one; every store
    reached from the empty one by calls of [get_unused_instance_id],
    [append_frame_to_instance] and [clean] is such a store; and when all
    recorded frame numbers are below [n], as at the end of the stream,
    [clean n] returns every live instance and leaves the store empty. *)
Theorem clean_partitions (self : InstanceDB) (n : Z) (cs : list call) :
  (distinct_ids self -> clean_partitions_by_frame self n)
  /\ clean_partitions_by_frame (store_after (InstanceDB_init None) cs) n
  /\ (recorded_before self n ->
      clean self n = (mkInstanceDB [] (_instanceid_cnt self), _instances self)).
Proof.
  split; [apply clean_by_frame | split; [|apply clean_at_end]].
  apply clean_by_frame, store_after_distinct; constructor.
Qed.

Lemma clean_partitions_witness :
  let a := mkInstance 1 "kicking" [mkInstanceFrameData 0 [] [] []] in
  let b := mkInstance 2 "kicking" [mkInstanceFrameData 0 [] [] [];
                                   mkInstanceFrameData 1 [] [] []] in
  let self := mkInstanceDB [a; b] 2 in
  (distinct_ids self /\ clean_partitions_by_frame self 1)
  /\ (recorded_before self 2 /\ clean self 2 = (mkInstanceDB [] 2, [a; b])).
Proof.
  intros a b self.
  assert (Hd : distinct_ids self).
  { unfold distinct_ids; simpl.
    constructor; [simpl; intros [E|[]]; discriminate|].
    constructor; [intros []|constructor]. }
  assert (Hb : recorded_before self 2).
  { intros i fr [<-|[<-|[]]]; simpl; intros H;
      repeat (destruct H as [<-|H]; [simpl; lia|]); destruct H. }
  split; split.
  - exact Hd.
  - exact (proj1 (clean_partitions self 1 []) Hd).
  - exact Hb.
  - exact (proj2 (proj2 (clean_partitions self 2 [])) Hb).
Defined.

(** ** Instance: looking a frame up *)

Lemma find_frame_some (n : Z) (l : list InstanceFrameData) :
  existsb (fun fr => frame_nr fr =? n) l = true ->
  exists fr, find (fun fr => py_int_eq (frame_nr fr) (PyInt n)) l = Some fr
             /\ In fr l /\ frame_nr fr = n.
Proof.
  induction l as [|fr l IH]; simpl; [discriminate|].
  destruct (Z.eqb_spec (frame_nr fr) n) as [E|E]; simpl.
  - intros _; exists fr; auto.
  - intros H; destruct (IH H) as (fr' & Hf & Hin & Hn); exists fr'; auto.
Qed.

Lemma find_frame_none (n : Z) (l : list InstanceFrameData) :
  existsb (fun fr => frame_nr fr =? n) l = false ->
  find (fun fr => py_int_eq (frame_nr fr) (PyInt n)) l = None.
Proof.
  induction l as [|fr l IH]; simpl; [reflexivity|].
  destruct (frame_nr fr =? n); simpl; [discriminate | exact IH].
Qed.

Lemma get_frame_with_nr_found (self : Instance) (n : Z) :
  has_frame self n = true ->
  exists fr, get_frame_with_nr self (PyInt n) = Ok fr
             /\ In fr (frames self) /\ frame_nr fr = n.
Proof.
  unfold has_frame, get_frame_with_nr; intros H.
  destruct (find_frame_some _ _ H) as (fr & Hf & Hin & Hn).
  exists fr; rewrite Hf; auto.
Qed.

(** C9.  With an integer frame number [n], [get_frame_with_nr] returns the
    first frame whose [frame_nr] is [n] when the instance has one; when it
    has none the call raises [TypeError], not [IndexError]: building the
    message of the [IndexError] adds the integer to a string. *)
Theorem get_frame_with_nr_int (self : Instance) (n : Z) :
  (has_frame self n = true ->
     exists fr, get_frame_with_nr self (PyInt n) = Ok fr
                /\ In fr (frames self) /\ frame_nr fr = n)
  /\ (has_frame self n = false ->
     get_frame_with_nr self (PyInt n) = Raise TypeError).
Proof.
  split; [apply get_frame_with_nr_found|].
  unfold has_frame, get_frame_with_nr; intros H.
  rewrite (find_frame_none _ _ H); reflexivity.
Qed.

Lemma get_frame_with_nr_int_witness :
  let self := Instance_init 1 "kicking" (mkInstanceFrameData 0 [] [] []) in
  (has_frame self 0 = true
   /\ exists fr, get_frame_with_nr self (PyInt 0) = Ok fr
                 /\ In fr (frames self) /\ frame_nr fr = 0)
  /\ (has_frame self 1 = false
      /\ get_frame_with_nr self (PyInt 1) = Raise TypeError).
Proof.
  intros self; split; split.
  - reflexivity.
  - exact (proj1 (get_frame_with_nr_int self 0) eq_refl).
  - reflexivity.
  - exact (proj2 (get_frame_with_nr_int self 1) eq_refl).
Defined.

(** The [IndexError] is reached only when the argument is a string, which
    no stored frame number equals. *)
Lemma get_frame_with_nr_str (self : Instance) (s : string) :
  get_frame_with_nr self (PyStr s) = Raise IndexError.
Proof.
  unfold get_frame_with_nr.
  replace (find _ (frames self)) with (@None InstanceFrameData); [reflexivity|].
  induction (frames self) as [|fr l IH]; simpl; auto.
Qed.

(** ** The matching score *)

Lemma count_cons {A} (p : A -> bool) (x : A) (t : list A) :
  Z.of_nat (length (filter p (x :: t)))
  = (if p x then 1 else 0) + Z.of_nat (length (filter p t)).
Proof.
  simpl; destruct (p x); [|lia].
  change (length (x :: filter p t)) with (S (length (filter p t))); lia.
Qed.

Lemma score_row (r s : list Z) :
  length r = length s -> binary_row r -> binary_row s ->
  exists m t,
    zip_with Z.eqb r s = Some m
    /\ zip_with (fun (b : bool) x => Z.land (if b then 1 else 0) x) m r = Some t
    /\ Z.of_nat (length (filter nonzero t)) = both_foreground_row r s.
Proof.
  revert s; induction r as [|x r IH]; intros [|y s] Hlen Hr Hs;
    try discriminate.
  - exists [], []; auto.
  - inversion Hr as [|? ? Hx Hr']; inversion Hs as [|? ? Hy Hs']; subst.
    injection Hlen as Hlen.
    destruct (IH s Hlen Hr' Hs') as (m & t & Hm & Ht & Hc).
    exists ((x =? y) :: m), (Z.land (if x =? y then 1 else 0) x :: t).
    cbn [zip_with both_foreground_row]; rewrite Hm, Ht; repeat split.
    rewrite count_cons, Hc.
    destruct Hx as [-> | ->], Hy as [-> | ->]; reflexivity.
Qed.

Lemma score_image (a b : image) :
  same_shape a b -> binary_mask a -> binary_mask b ->
  exists m c,
    np_equal a b = Some m
    /\ np_bitwise_and m a = Some c
    /\ np_count_nonzero c = both_foreground_count a b.
Proof.
  unfold same_shape, binary_mask, np_equal, np_bitwise_and, np_count_nonzero.
  induction 1 as [|r s a b Hlen Hsh IH]; intros Ha Hb.
  - exists [], []; auto.
  - inversion Ha as [|? ? Hr Ha']; inversion Hb as [|? ? Hs Hb']; subst.
    destruct (score_row Hlen Hr Hs) as (m & t & Hm & Ht & Hc).
    destruct (IH Ha' Hb') as (ms & c & Hms & Hcs & Hcc).
    exists (m :: ms), (t :: c); simpl.
    rewrite Hm, Hms, Ht, Hcs; repeat split.
    rewrite filter_app, length_app, Nat2Z.inj_add.
    fold nonzero in Hcc |- *; rewrite Hc, Hcc; reflexivity.
Qed.

(** C4.  For two masks of the same shape with entries 0 or 255,
    [get_equal_white_pixel_count] is the number of positions that are
    nonzero in both: the plain count, divided by nothing. *)
Theorem get_equal_white_pixel_count_intersection (img1 img2 : image) :
  same_shape img1 img2 -> binary_mask img1 -> binary_mask img2 ->
  get_equal_white_pixel_count img1 img2 = Some (both_foreground_count img1 img2).
Proof.
  intros Hsh H1 H2; unfold get_equal_white_pixel_count.
  destruct (score_image Hsh H1 H2) as (m & c & -> & -> & ->); reflexivity.
Qed.

Lemma get_equal_white_pixel_count_intersection_witness :
  get_equal_white_pixel_count [[0; 255]; [255; 255]] [[255; 255]; [0; 255]]
  = Some 2.
Proof.
  apply (@get_equal_white_pixel_count_intersection
           [[0; 255]; [255; 255]] [[255; 255]; [0; 255]]).
  - repeat (apply Forall2_cons || apply Forall2_nil); reflexivity.
  - repeat (apply Forall_cons || apply Forall_nil);
      ((left; reflexivity) || (right; reflexivity)).
  - repeat (apply Forall_cons || apply Forall_nil);
      ((left; reflexivity) || (right; reflexivity)).
Defined.

(** Outside binary masks the score is not that count: an even gray value
    present in both masks is not counted. *)
Example get_equal_white_pixel_count_gray :
  get_equal_white_pixel_count [[2]] [[2]] = Some 0
  /\ both_foreground_count [[2]] [[2]] = 1.
Proof. split; reflexivity. Qed.

(** ** Choosing the best previous instance *)

(** [sorted_desc] is the stable sort by descending score: a permutation,
    in descending order of score, that keeps the pairs of every score in the
    order they had. *)
Lemma insert_desc_perm (x : Z * Z) (l : list (Z * Z)) :
  Permutation (x :: l) (insert_desc x l).
Proof.
  induction l as [|y l IH]; simpl; [reflexivity|].
  destruct (snd x <? snd y); [|reflexivity].
  rewrite perm_swap; constructor; exact IH.
Qed.

Lemma sorted_desc_perm (l : list (Z * Z)) : Permutation l (sorted_desc l).
Proof.
  induction l as [|x l IH]; simpl; [reflexivity|].
  rewrite <- insert_desc_perm; constructor; exact IH.
Qed.

Lemma insert_desc_sorted (x : Z * Z) (l : list (Z * Z)) :
  StronglySorted score_ge l -> StronglySorted score_ge (insert_desc x l).
Proof.
  induction 1 as [|y l Hl IH Hy]; simpl.
  - constructor; constructor.
  - destruct (Z.ltb_spec (snd x) (snd y)).
    + constructor; [exact IH|].
      rewrite <- insert_desc_perm; constructor; [unfold score_ge; lia | exact Hy].
    + constructor; [constructor; assumption|].
      constructor; [unfold score_ge; lia|].
      eapply Forall_impl; [|exact Hy]; unfold score_ge; simpl; intros; lia.
Qed.

Lemma sorted_desc_sorted (l : list (Z * Z)) : StronglySorted score_ge (sorted_desc l).
Proof.
  induction l as [|x l IH]; simpl; [constructor | apply insert_desc_sorted, IH].
Qed.

Lemma insert_desc_stable (k : Z) (x : Z * Z) (l : list (Z * Z)) :
  filter (fun p => snd p =? k) (insert_desc x l)
  = filter (fun p => snd p =? k) (x :: l).
Proof.
  induction l as [|y l IH]; simpl; [reflexivity|].
  destruct (Z.ltb_spec (snd x) (snd y)); simpl; [|reflexivity].
  rewrite IH; simpl.
  destruct (Z.eqb_spec (snd x) k), (Z.eqb_spec (snd y) k); try reflexivity; lia.
Qed.

Lemma sorted_desc_stable (k : Z) (l : list (Z * Z)) :
  filter (fun p => snd p =? k) (sorted_desc l) = filter (fun p => snd p =? k) l.
Proof.
  induction l as [|x l IH]; simpl; [reflexivity|].
  rewrite insert_desc_stable; simpl; rewrite IH; reflexivity.
Qed.

(** The head of the sorted list is the first pair of maximal score. *)
Lemma sorted_desc_head (l : list (Z * Z)) :
  l <> [] ->
  exists before best after rest,
    l = before ++ best :: after
    /\ sorted_desc l = best :: rest
    /\ Forall (fun p => snd p < snd best) before
    /\ Forall (fun p => snd p <= snd best) after.
Proof.
  induction l as [|x l IH]; [congruence|]; intros _.
  destruct l as [|y l].
  - exists [], x, [], []; simpl; auto.
  - destruct IH as (before & best & after & rest & Hl & Hs & Hb & Ha);
      [discriminate|].
    change (sorted_desc (x :: y :: l)) with (insert_desc x (sorted_desc (y :: l))).
    rewrite Hs, Hl; simpl.
    destruct (Z.ltb_spec (snd x) (snd best)).
    + exists (x :: before), best, after, (insert_desc x rest).
      repeat split; auto.
    + exists [], x, (before ++ best :: after), (best :: rest).
      repeat split; auto.
      apply Forall_app; split; [|constructor; [lia|]].
      * eapply Forall_impl; [|exact Hb]; simpl; intros; lia.
      * eapply Forall_impl; [|exact Ha]; simpl; intros; lia.
Qed.

Lemma Forall2_In_left {A B} (R : A -> B -> Prop) (l : list A) (l' : list B) (x : A) :
  Forall2 R l l' -> In x l -> exists y, In y l' /\ R x y.
Proof.
  induction 1 as [|a b l l' Hab _ IH]; simpl; [contradiction|].
  intros [<-|Hx]; [exists b; auto|].
  destruct (IH Hx) as (y & Hy & Hxy); exists y; auto.
Qed.

Lemma IOUs_of_scores (C : list Instance) (frameNr : Z) (mask : image)
    (IOUs : list (Z * Z)) :
  IOUs_of C frameNr mask = Ok IOUs ->
  Forall2 (fun c p => fst p = instance_id c
                      /\ candidate_score frameNr mask c = Ok (snd p)) C IOUs.
Proof.
  intros H; apply mapM_Ok_Forall2 in H.
  eapply Forall2_impl; [|exact H]; simpl; intros c p Hp.
  unfold candidate_score.
  apply bind_Ok in Hp as (fr & -> & Hp); simpl.
  apply bind_Ok in Hp as (s & -> & Hp); inversion Hp; auto.
Qed.

(** In a non-empty list of candidates with its list of (id, score) pairs,
    the head of the sorted list belongs to the first candidate of maximal
    score. *)
Lemma first_maximum_of_candidates (C : list Instance) (frameNr : Z)
    (mask : image) (IOUs : list (Z * Z)) :
  C <> [] ->
  IOUs_of C frameNr mask = Ok IOUs ->
  exists before c after best_iou rest,
    C = before ++ c :: after
    /\ sorted_desc IOUs = (instance_id c, best_iou) :: rest
    /\ candidate_score frameNr mask c = Ok best_iou
    /\ (forall x s, In x before -> candidate_score frameNr mask x = Ok s ->
                    s < best_iou)
    /\ (forall x s, In x after -> candidate_score frameNr mask x = Ok s ->
                    s <= best_iou).
Proof.
  intros HC H; apply IOUs_of_scores in H.
  assert (HI : IOUs <> []) by (inversion H; subst; congruence).
  destruct (sorted_desc_head HI) as (pb & [bid bs] & pa & rest & E & Hs & Hb & Ha).
  subst IOUs.
  apply Forall2_app_inv_r in H as (before & tl & Hbef & Htl & ->).
  inversion Htl as [|c p after pa' [Hid Hc] Haft]; subst.
  simpl in Hid, Hc; subst bid.
  exists before, c, after, bs, rest; repeat split; auto.
  - intros x s Hx Hsc.
    destruct (@Forall2_In_left _ _ _ _ _ _ Hbef Hx) as (p & Hp & _ & Hps).
    rewrite Forall_forall in Hb; specialize (Hb p Hp); simpl in Hb.
    rewrite Hsc in Hps; inversion Hps; lia.
  - intros x s Hx Hsc.
    destruct (@Forall2_In_left _ _ _ _ _ _ Haft Hx) as (p & Hp & _ & Hps).
    rewrite Forall_forall in Ha; specialize (Ha p Hp); simpl in Ha.
    rewrite Hsc in Hps; inversion Hps; lia.
Qed.

(** C5.  For the non-empty candidate list [C] that
    [get_instances_of_type_in_frame] returns and its list [IOUs] of (id,
    score) pairs, the candidate selected as best is one of maximal score,
    and the first such in the order of [C]: every candidate before it has a
    smaller score and every one after it no greater score.  Its id and
    score are the [best_previd] and [best_iou] on which the choice of the
    id rests: the id is continued when the score is positive and the id
    not yet in the current frame, and a fresh id is taken otherwise. *)
Theorem best_previd_first_maximum (db : InstanceDB) (frameNr : Z)
    (d : Detection) (IOUs : list (Z * Z)) :
  let C := get_instances_of_type_in_frame db (det_label d) (frameNr - 1) in
  C <> [] ->
  IOUs_of C frameNr (inst_segm_mask d) = Ok IOUs ->
  exists before c after best_iou rest,
    C = before ++ c :: after
    /\ sorted_desc IOUs = (instance_id c, best_iou) :: rest
    /\ candidate_score frameNr (inst_segm_mask d) c = Ok best_iou
    /\ (forall x s, In x before ->
                    candidate_score frameNr (inst_segm_mask d) x = Ok s ->
                    s < best_iou)
    /\ (forall x s, In x after ->
                    candidate_score frameNr (inst_segm_mask d) x = Ok s ->
                    s <= best_iou)
    /\ choose_instanceid db frameNr d
       = Ok (if (best_iou >? 0)
                && negb (py_in (instance_id c)
                               (get_instance_ids_in_frame db frameNr))
             then (db, instance_id c)
             else get_unused_instance_id db).
Proof.
  intros C HC HI.
  destruct (@first_maximum_of_candidates C frameNr (inst_segm_mask d) IOUs HC HI)
    as (before & c & after & best_iou & rest & E & Hs & Hc & Hb & Ha).
  exists before, c, after, best_iou, rest.
  repeat (split; [assumption|]).
  unfold choose_instanceid; fold C.
  destruct (Z.ltb_spec 0 (Z.of_nat (length C))) as [_|Hlen].
  - rewrite HI; cbn [bind]; rewrite Hs.
    destruct (_ && _); reflexivity.
  - destruct C; [congruence | simpl in Hlen; lia].
Qed.

(** Two candidates of the same, maximal score 2: the first, of id 3, is
    the one continued. *)
Lemma best_previd_first_maximum_witness :
  let m := [[255; 255]] in
  let a := Instance_init 3 "kicking" (mkInstanceFrameData 0 m [] []) in
  let b := Instance_init 4 "kicking" (mkInstanceFrameData 0 m [] []) in
  let db := mkInstanceDB [a; b] 4 in
  let d := mkDetection "kicking" m [] [] in
  choose_instanceid db 1 d = Ok (db, 3)
  /\ exists before c after best_iou rest,
       [a; b] = before ++ c :: after
       /\ sorted_desc [(3, 2); (4, 2)] = (instance_id c, best_iou) :: rest
       /\ candidate_score 1 m c = Ok best_iou
       /\ (forall x s, In x before -> candidate_score 1 m x = Ok s -> s < best_iou)
       /\ (forall x s, In x after -> candidate_score 1 m x = Ok s -> s <= best_iou)
       /\ choose_instanceid db 1 d
          = Ok (if (best_iou >? 0)
                   && negb (py_in (instance_id c) (get_instance_ids_in_frame db 1))
                then (db, instance_id c)
                else get_unused_instance_id db).
Proof.
  intros m a b db d; split; [reflexivity|].
  apply (@best_previd_first_maximum db 1 d [(3, 2); (4, 2)]).
  - discriminate.
  - reflexivity.
Defined.

(** Two candidates of equal, maximal score: the first in the list is taken. *)
Example sorted_desc_tie :
  sorted_desc [(7, 1); (3, 10); (4, 10); (5, 2)] = [(3, 10); (4, 10); (5, 2); (7, 1)].
Proof. reflexivity. Qed.

(** ** The tube builder *)

Lemma scan_points_eq (ps : list point) : forall b : bounds,
  fold_left scan_point ps b
  = mkBounds (lowers (map fst ps) (b_min_x b)) (lowers (map snd ps) (b_min_y b))
             (uppers (map fst ps) (b_max_x b)) (uppers (map snd ps) (b_max_y b))
             (b_min_frame b) (b_max_frame b).
Proof.
  induction ps as [|p ps IH]; intros b; simpl.
  - destruct b; reflexivity.
  - rewrite IH; reflexivity.
Qed.

Lemma scan_frames_eq (frs : list InstanceFrameData) : forall b : bounds,
  fold_left scan_frame frs b
  = mkBounds (lowers (map fst (flat_map segm_bbox frs)) (b_min_x b))
             (lowers (map snd (flat_map segm_bbox frs)) (b_min_y b))
             (uppers (map fst (flat_map segm_bbox frs)) (b_max_x b))
             (uppers (map snd (flat_map segm_bbox frs)) (b_max_y b))
             (lowers (map frame_nr frs) (b_min_frame b))
             (uppers (map frame_nr frs) (b_max_frame b)).
Proof.
  induction frs as [|fr frs IH]; intros b; simpl.
  - destruct b; reflexivity.
  - rewrite IH; unfold scan_frame; rewrite scan_points_eq; simpl.
    unfold lowers, uppers; rewrite !map_app, !fold_left_app; reflexivity.
Qed.

Lemma Tube_init_eq (i : Instance) :
  Tube_init i
  = mkTube (instance_of i) (instance_id i)
           (lowers (map fst (corners i)) PosInf) (lowers (map snd (corners i)) PosInf)
           (uppers (map fst (corners i)) 0) (uppers (map snd (corners i)) 0)
           (lowers (map frame_nr (frames i)) PosInf)
           (uppers (map frame_nr (frames i)) 0).
Proof.
  unfold Tube_init; rewrite scan_frames_eq; reflexivity.
Qed.

Lemma uppers_spec (vs : list Z) : forall c : Z,
  c <= uppers vs c
  /\ Forall (fun v => v <= uppers vs c) vs
  /\ (uppers vs c = c \/ In (uppers vs c) vs).
Proof.
  induction vs as [|v vs IH]; intros c; simpl.
  - split; [lia | split; [constructor | left; reflexivity]].
  - destruct (IH (upper v c)) as (Hle & Hall & Hin).
    assert (Hu : c <= upper v c /\ v <= upper v c /\ (upper v c = c \/ upper v c = v)).
    { unfold upper; destruct (Z.gtb_spec v c); lia. }
    fold (uppers vs (upper v c)).
    split; [lia | split].
    + constructor; [lia | exact Hall].
    + destruct Hin as [E|Hin]; [|right; right; exact Hin].
      rewrite E; destruct Hu as (_ & _ & [Hc|Hv]); [left | right; left]; auto.
Qed.

Lemma lowers_Num (vs : list Z) : forall c : Z,
  exists m, lowers vs (Num c) = Num m
            /\ m <= c
            /\ Forall (fun v => m <= v) vs
            /\ (m = c \/ In m vs).
Proof.
  induction vs as [|v vs IH]; intros c; simpl.
  - exists c; split; [reflexivity | split; [lia | split; [constructor | left; reflexivity]]].
  - fold (lowers vs (lower v (Num c))).
    assert (Hl : exists c', lower v (Num c) = Num c' /\ c' <= c /\ c' <= v
                            /\ (c' = c \/ c' = v)).
    { unfold lower; simpl; destruct (Z.ltb_spec v c);
        [exists v | exists c]; repeat split; auto; lia. }
    destruct Hl as (c' & -> & Hc & Hv & Hor).
    destruct (IH c') as (m & -> & Hm & Hall & Hin).
    exists m; split; [reflexivity | split; [lia | split]].
    + constructor; [lia | exact Hall].
    + destruct Hin as [E|Hin]; [|right; right; exact Hin].
      subst m; destruct Hor as [E|E]; [left | right; left]; auto.
Qed.

Lemma lowers_PosInf (vs : list Z) :
  vs <> [] -> exists m, lowers vs PosInf = Num m /\ is_min m vs.
Proof.
  destruct vs as [|v vs]; [congruence|]; intros _.
  change (lowers (v :: vs) PosInf) with (lowers vs (Num v)).
  destruct (lowers_Num vs v) as (m & -> & Hm & Hall & Hin).
  exists m; split; [reflexivity|]; split.
  - destruct Hin as [E|Hin]; [left; auto | right; exact Hin].
  - constructor; [lia | exact Hall].
Qed.

Lemma uppers_nonneg (vs : list Z) :
  vs <> [] -> Forall (fun v => 0 <= v) vs -> is_max (uppers vs 0) vs.
Proof.
  intros Hne Hpos.
  destruct (uppers_spec vs 0) as (Hle & Hall & Hin).
  split; [|exact Hall].
  destruct Hin as [E|Hin]; [|exact Hin].
  rewrite E in *.
  destruct vs as [|v vs]; [congruence|].
  inversion Hall; inversion Hpos; subst.
  left; lia.
Qed.

Lemma uppers_some_nonneg (vs : list Z) (v : Z) :
  In v vs -> 0 <= v -> is_max (uppers vs 0) vs.
Proof.
  intros Hv H0; destruct (uppers_spec vs 0) as (_ & Hall & Hin).
  split; [|exact Hall].
  destruct Hin as [E|Hin]; [|exact Hin].
  rewrite Forall_forall in Hall; specialize (Hall v Hv).
  replace (uppers vs 0) with v by lia; exact Hv.
Qed.

Lemma is_max_uppers_nonneg (vs : list Z) :
  is_max (uppers vs 0) vs -> exists v, In v vs /\ 0 <= v.
Proof.
  intros [Hin _]; exists (uppers vs 0); split; [exact Hin|].
  apply (uppers_spec vs 0).
Qed.

Lemma nonneg_in_map {A} (g : A -> Z) (l : list A) (a : A) :
  In a l -> 0 <= g a -> exists v, In v (map g l) /\ 0 <= v.
Proof.
  intros Ha H0; exists (g a); split; [apply in_map, Ha | exact H0].
Qed.

Lemma nonneg_of_map {A} (g : A -> Z) (l : list A) :
  (exists v, In v (map g l) /\ 0 <= v) -> exists a, In a l /\ 0 <= g a.
Proof.
  intros (v & Hv & H0); apply in_map_iff in Hv as (a & <- & Ha); eauto.
Qed.

(** The bounds are tight exactly when a maximum has something to start
    from: some frame number, some x and some y that are not negative. *)
Lemma tube_bounds_tight_iff (i : Instance) :
  tube_bounds_tight i
  <-> (exists fr, In fr (frames i) /\ 0 <= frame_nr fr)
      /\ (exists p, In p (corners i) /\ 0 <= fst p)
      /\ (exists p, In p (corners i) /\ 0 <= snd p).
Proof.
  unfold tube_bounds_tight; rewrite Tube_init_eq; simpl; split.
  - intros (_ & Hf & _ & Hx & _ & Hy).
    repeat apply conj; apply nonneg_of_map, is_max_uppers_nonneg; assumption.
  - intros ((fr & Hfr & Hf) & (px & Hpx & Hx) & (py & Hpy & Hy)).
    destruct (nonneg_in_map frame_nr _ _ Hfr Hf) as (vf & Hvf & Hf').
    destruct (nonneg_in_map fst _ _ Hpx Hx) as (vx & Hvx & Hx').
    destruct (nonneg_in_map snd _ _ Hpy Hy) as (vy & Hvy & Hy').
    repeat apply conj;
      solve [ apply lowers_PosInf; intros E; rewrite E in *; contradiction
            | eapply uppers_some_nonneg; eassumption ].
Qed.

(** C6.  For an instance whose frames list is not empty and holds frame
    data as the tracker records it, the tube has the least and the
    greatest frame number as [min_frame] and [max_frame], and its box is
    the tight enclosure of all corners, each bound attained; it carries the
    label and the id of the instance and is a function of the instance's
    id, label and frames alone.  In general the bounds are tight exactly
    when some frame number, some x and some y are not negative. *)
Theorem Tube_bounds (i : Instance) :
  (frames i <> [] -> Forall recorded_by_tracker (frames i) -> tube_bounds_tight i)
  /\ (tube_bounds_tight i
      <-> (exists fr, In fr (frames i) /\ 0 <= frame_nr fr)
          /\ (exists p, In p (corners i) /\ 0 <= fst p)
          /\ (exists p, In p (corners i) /\ 0 <= snd p))
  /\ label (Tube_init i) = instance_of i
  /\ tube_id (Tube_init i) = instance_id i
  /\ (forall i', instance_id i' = instance_id i -> instance_of i' = instance_of i ->
                 frames i' = frames i -> Tube_init i' = Tube_init i).
Proof.
  split; [|split; [apply tube_bounds_tight_iff | split; [reflexivity | split;
                                                         [reflexivity|]]]].
  - intros Hne Hall; apply tube_bounds_tight_iff.
    unfold corners.
    destruct (frames i) as [|fr frs]; [congruence|].
    inversion Hall as [|? ? (Hf & x & y & w & h & Hx & Hy & _ & _ & E) _]; subst.
    split; [exists fr; split; [left; reflexivity | exact Hf]|].
    simpl; rewrite E; split; exists (x, y); (split; [left; reflexivity | assumption]).
  - intros i' Hid Hof Hfrs; destruct i', i; simpl in *; subst; reflexivity.
Qed.

Lemma Tube_bounds_witness :
  let i := mkInstance 5 "kicking"
             [mkInstanceFrameData 0 [] (bounding_rect_corners 2 1 4 2) [];
              mkInstanceFrameData 1 [] (bounding_rect_corners 3 0 2 4) []] in
  Tube_init i = mkTube "kicking" 5 (Num 2) (Num 0) 6 4 (Num 0) 1
  /\ tube_bounds_tight i.
Proof.
  intros i; split; [reflexivity|].
  apply (proj1 (Tube_bounds i)); [discriminate|].
  repeat (apply Forall_cons || apply Forall_nil);
    (split; [simpl; lia|]).
  - exists 2, 1, 4, 2; repeat split; lia.
  - exists 3, 0, 2, 4; repeat split; lia.
Defined.

Example Tube_init_two_frames :
  Tube_init (mkInstance 5 "kicking"
               [mkInstanceFrameData 0 [] [(2, 1); (2, 3); (6, 3); (6, 1)] [];
                mkInstanceFrameData 1 [] [(3, 0); (3, 4); (5, 4); (5, 0)] []])
  = mkTube "kicking" 5 (Num 2) (Num 0) 6 4 (Num 0) 1.
Proof. reflexivity. Qed.

(** ** The duration filter *)

Lemma Tube_init_min_frame (i : Instance) :
  frames i <> [] -> exists lo, min_frame (Tube_init i) = Num lo.
Proof.
  intros H; rewrite Tube_init_eq; simpl.
  destruct (@lowers_PosInf (map frame_nr (frames i))) as (lo & E & _).
  - destruct (frames i); [congruence | discriminate].
  - exists lo; exact E.
Qed.

Lemma Tube_init_min_frame_cases (i : Instance) :
  min_frame (Tube_init i) = PosInf \/ exists lo, min_frame (Tube_init i) = Num lo.
Proof.
  destruct (frames i) as [|fr frs] eqn:E.
  - left; unfold Tube_init; rewrite E; reflexivity.
  - right; apply Tube_init_min_frame; rewrite E; discriminate.
Qed.

(** C7.  A tube built from an instance is kept exactly when
    [max_frame - min_frame >= MIN_TUBE_LENGTH], for every integer
    [MIN_TUBE_LENGTH]; the filtered list holds exactly the tubes of the
    list with that property; and a tube whose difference equals
    [MIN_TUBE_LENGTH] is kept. *)
Theorem keep_iff_duration (i : Instance) (MIN_TUBE_LENGTH : Z) (tubes : list Tube) :
  let tube := Tube_init i in
  (keep tube MIN_TUBE_LENGTH = true <-> duration_at_least tube MIN_TUBE_LENGTH)
  /\ (In tube (filter_tubes MIN_TUBE_LENGTH tubes)
      <-> In tube tubes /\ duration_at_least tube MIN_TUBE_LENGTH)
  /\ (forall lo, min_frame tube = Num lo ->
                 max_frame tube - lo = MIN_TUBE_LENGTH ->
                 keep tube MIN_TUBE_LENGTH = true).
Proof.
  intros tube.
  assert (K : keep tube MIN_TUBE_LENGTH = true
              <-> duration_at_least tube MIN_TUBE_LENGTH).
  { unfold keep, duration_at_least.
    destruct (Tube_init_min_frame_cases i) as [E | [lo E]]; fold tube in E;
      rewrite E; simpl.
    - split; [discriminate | intros (lo & Hlo & _); discriminate].
    - rewrite Z.leb_le; split.
      + intros H; exists lo; split; [reflexivity | lia].
      + intros (lo' & Hlo & H); inversion Hlo; lia. }
  split; [exact K | split].
  - unfold filter_tubes; rewrite filter_In, K; reflexivity.
  - intros lo E H; apply K; exists lo; split; [exact E | lia].
Qed.

(** An instance seen in frames 0 and 30 gives a tube of duration 30, kept
    for [MIN_TUBE_LENGTH = 30]. *)
Example keep_thirty_frames :
  let tube := Tube_init (mkInstance 5 "kicking"
                [mkInstanceFrameData 0 [] [] []; mkInstanceFrameData 30 [] [] []]) in
  min_frame tube = Num 0 /\ max_frame tube = 30
  /\ filter_tubes 30 [tube] = [tube] /\ filter_tubes 31 [tube] = [].
Proof. repeat split. Qed.

(** On the boundary, and one frame short of it. *)
Example keep_boundary :
  keep (mkTube "kicking" 5 (Num 0) (Num 0) 9 9 (Num 3) 33) 30 = true
  /\ keep (mkTube "kicking" 5 (Num 0) (Num 0) 9 9 (Num 3) 32) 30 = false.
Proof. split; reflexivity. Qed.

(** ** The tracker: one claim per identity and frame *)

Lemma ids_in_frame_subset (l : list Instance) (f x : Z) :
  In x (flat_map (fun i => map (fun _ => instance_id i) (frames_with_nr i f)) l) ->
  In x (map instance_id l).
Proof.
  rewrite in_flat_map; intros (i & Hi & Hx).
  apply in_map_iff in Hx as (_ & <- & _); apply in_map; exact Hi.
Qed.

Lemma ids_in_frame_NoDup (db : InstanceDB) (f : Z) :
  distinct_ids db ->
  Forall (fun i => (length (frames_with_nr i f) <= 1)%nat) (_instances db) ->
  NoDup (get_instance_ids_in_frame db f).
Proof.
  unfold distinct_ids, get_instance_ids_in_frame.
  induction (_instances db) as [|i l IH]; simpl; intros Hd Ho; [constructor|].
  inversion Hd as [|? ? Hi Hl]; inversion Ho as [|? ? Hlen Ho']; subst.
  destruct (frames_with_nr i f) as [|fr [|fr' frs]]; simpl in *.
  - auto.
  - constructor; [|auto].
    intros Hin; apply Hi; eapply ids_in_frame_subset; exact Hin.
  - lia.
Qed.

Lemma tracker_inv_NoDup (db : InstanceDB) (f : Z) :
  tracker_inv db f -> NoDup (get_instance_ids_in_frame db f).
Proof.
  intros [Hd _ Ho _]; apply ids_in_frame_NoDup; assumption.
Qed.

Lemma Forall2_In_right {A B} (R : A -> B -> Prop) (l : list A) (l' : list B) (y : B) :
  Forall2 R l l' -> In y l' -> exists x, In x l /\ R x y.
Proof.
  induction 1 as [|a b l l' Hab _ IH]; simpl; [contradiction|].
  intros [<-|Hy]; [exists a; auto|].
  destruct (IH Hy) as (x & Hx & Hxy); exists x; auto.
Qed.

Lemma candidates_live (db : InstanceDB) (lbl : string) (n : Z) (c : Instance) :
  In c (get_instances_of_type_in_frame db lbl n) ->
  In c (_instances db) /\ instance_of c = lbl /\ has_frame c n = true.
Proof.
  unfold get_instances_of_type_in_frame; rewrite in_flat_map.
  intros (i & Hi & Hc).
  destruct (String.eqb_spec (instance_of i) lbl) as [E|E]; [|contradiction].
  assert (Hne : frames_with_nr i n <> []) by (intros E'; rewrite E' in Hc; contradiction).
  apply in_map_iff in Hc as (_ & <- & _).
  split; [exact Hi | split; [exact E | apply has_frame_frames_with_nr; exact Hne]].
Qed.

(** The id chosen for a detection: an id is continued only when it is that
    of a candidate of the previous frame with a positive score and is not
    yet among the ids of the current frame; otherwise the id is the next
    value of the counter. *)
Lemma choose_instanceid_rule (db db1 : InstanceDB) (f id : Z) (d : Detection) :
  choose_instanceid db f d = Ok (db1, id) ->
  (db1 = db
   /\ (exists c s, In c (get_instances_of_type_in_frame db (det_label d) (f - 1))
                   /\ instance_id c = id
                   /\ candidate_score f (inst_segm_mask d) c = Ok s /\ 0 < s)
   /\ ~ In id (get_instance_ids_in_frame db f))
  \/ (db1, id) = get_unused_instance_id db.
Proof.
  unfold choose_instanceid.
  set (C := get_instances_of_type_in_frame db (det_label d) (f - 1)).
  destruct (0 <? Z.of_nat (length C)).
  2:{ intros H; inversion H; right; reflexivity. }
  intros H; apply bind_Ok in H as (IOUs & HI & H).
  destruct (sorted_desc IOUs) as [|[best_previd best_iou] rest] eqn:Hs;
    [discriminate|].
  destruct ((best_iou >? 0)
            && negb (py_in best_previd (get_instance_ids_in_frame db f))) eqn:Hb.
  2:{ inversion H; right; reflexivity. }
  inversion H; subst; left.
  apply andb_true_iff in Hb as [Hpos Hb]; apply negb_true_iff, py_in_false in Hb.
  split; [reflexivity | split; [|exact Hb]].
  assert (Hin : In (id, best_iou) IOUs).
  { eapply Permutation_in; [symmetry; apply sorted_desc_perm|].
    rewrite Hs; left; reflexivity. }
  apply IOUs_of_scores in HI.
  destruct (@Forall2_In_right _ _ _ _ _ _ HI Hin) as (c & Hc & Hid & Hsc).
  exists c, best_iou; simpl in *; repeat split; auto.
  apply Z.gtb_lt in Hpos; lia.
Qed.

Lemma choose_instanceid_cases (db db1 : InstanceDB) (f id : Z) (d : Detection) :
  choose_instanceid db f d = Ok (db1, id) ->
  (db1 = db /\ In id (map instance_id (_instances db))
   /\ ~ In id (get_instance_ids_in_frame db f))
  \/ (db1 = mkInstanceDB (_instances db) (_instanceid_cnt db + 1)
      /\ id = _instanceid_cnt db + 1).
Proof.
  intros H; apply choose_instanceid_rule in H
    as [(-> & (c & s & Hc & <- & _) & Hnew) | E].
  - left; split; [reflexivity | split; [|exact Hnew]].
    apply in_map; apply candidates_live in Hc; tauto.
  - right; inversion E; auto.
Qed.

Lemma frames_with_nr_append (i : Instance) (fr : InstanceFrameData) (f : Z) :
  frames_with_nr (append_frame i fr) f
  = frames_with_nr i f ++ (if frame_nr fr =? f then [fr] else []).
Proof.
  unfold frames_with_nr, append_frame; simpl; rewrite filter_app; reflexivity.
Qed.

(** Committing a frame numbered [f] to a live id not yet seen in [f]. *)
Lemma commit_continue_inv (db : InstanceDB) (f id : Z) (fr : InstanceFrameData)
    (lbl : option string) :
  tracker_inv db f -> frame_nr fr = f ->
  In id (map instance_id (_instances db)) ->
  ~ In id (get_instance_ids_in_frame db f) ->
  snd (append_frame_to_instance db id fr lbl) = Ok tt
  /\ tracker_inv (fst (append_frame_to_instance db id fr lbl)) f.
Proof.
  intros [Hd Hc Ho Hu] Hf Hlive Hnew.
  rewrite append_frame_to_instance_eq.
  apply is_live_iff in Hlive; rewrite Hlive; simpl.
  split; [reflexivity|]; constructor; simpl.
  - unfold distinct_ids; simpl; rewrite map_map.
    rewrite (map_ext _ instance_id) by (intros; apply append_where_id); exact Hd.
  - apply Forall_map; eapply Forall_impl; [|exact Hc]; simpl.
    intros i; rewrite append_where_id; auto.
  - apply Forall_map; rewrite Forall_forall in *; intros i Hi.
    unfold append_where; destruct (Z.eqb_spec (instance_id i) id) as [E|E];
      [|apply Ho; exact Hi].
    rewrite frames_with_nr_append, length_app.
    assert (Hz : frames_with_nr i f = []).
    { destruct (frames_with_nr i f) eqn:Hfw; [reflexivity|].
      exfalso; apply Hnew, in_ids_in_frame; exists i.
      split; [exact Hi | split; [exact E|]].
      apply has_frame_frames_with_nr; rewrite Hfw; discriminate. }
    rewrite Hz; destruct (frame_nr fr =? f); simpl; lia.
  - intros i fr' Hi Hfr'.
    apply in_map_iff in Hi as (j & <- & Hj).
    unfold append_where in Hfr'; destruct (instance_id j =? id).
    + simpl in Hfr'; apply in_app_iff in Hfr' as [H|[<-|[]]]; [eauto | lia].
    + eauto.
Qed.

(** Committing a frame numbered [f] to the next value of the counter. *)
Lemma commit_fresh_inv (db : InstanceDB) (f : Z) (fr : InstanceFrameData)
    (lbl : string) :
  tracker_inv db f -> frame_nr fr = f ->
  let db1 := mkInstanceDB (_instances db) (_instanceid_cnt db + 1) in
  snd (append_frame_to_instance db1 (_instanceid_cnt db + 1) fr (Some lbl)) = Ok tt
  /\ tracker_inv
       (fst (append_frame_to_instance db1 (_instanceid_cnt db + 1) fr (Some lbl))) f.
Proof.
  intros [Hd Hc Ho Hu] Hf db1.
  assert (Hnot : ~ In (_instanceid_cnt db + 1) (map instance_id (_instances db))).
  { intros Hin; apply in_map_iff in Hin as (i & E & Hi).
    rewrite Forall_forall in Hc; specialize (Hc i Hi); lia. }
  rewrite append_frame_to_instance_eq.
  destruct (is_live db1 (_instanceid_cnt db + 1)) eqn:L.
  { apply is_live_iff in L; contradiction. }
  simpl; split; [reflexivity|]; constructor; simpl.
  - unfold distinct_ids; simpl; rewrite map_app; simpl.
    apply NoDup_snoc; assumption.
  - apply Forall_app; split.
    + eapply Forall_impl; [|exact Hc]; simpl; intros; lia.
    + constructor; [simpl; lia | constructor].
  - apply Forall_app; split; [exact Ho|].
    constructor; [|constructor].
    unfold frames_with_nr; simpl; destruct (frame_nr fr =? f); simpl; lia.
  - intros i fr' Hi Hfr'; apply in_app_iff in Hi as [Hi|[<-|[]]]; [eauto|].
    simpl in Hfr'; destruct Hfr' as [<-|[]]; lia.
Qed.

Lemma track_detection_inv (db db' : InstanceDB) (f : Z) (d : Detection) :
  tracker_inv db f -> track_detection db f d = Ok db' -> tracker_inv db' f.
Proof.
  intros Hinv H; unfold track_detection in H.
  apply bind_Ok in H as ([db1 id] & Hch & H).
  set (fr := mkInstanceFrameData f (inst_segm_mask d) (inst_segm_bbox d)
                                 (inst_segm_rbox d)) in *.
  apply choose_instanceid_cases in Hch as [(-> & Hlive & Hnew) | (-> & ->)].
  - destruct (@commit_continue_inv db f id fr (Some (det_label d)) Hinv eq_refl
                Hlive Hnew) as [Hr Hi].
    destruct (append_frame_to_instance db id fr (Some (det_label d))) as [db2 r].
    simpl in *; subst r; inversion H; subst; exact Hi.
  - destruct (@commit_fresh_inv db f fr (det_label d) Hinv eq_refl) as [Hr Hi].
    destruct (append_frame_to_instance _ _ fr (Some (det_label d))) as [db2 r].
    simpl in *; subst r; inversion H; subst; exact Hi.
Qed.

Lemma track_frame_inv (dets : list Detection) : forall (db db' : InstanceDB) (f : Z),
  tracker_inv db f -> track_frame db f dets = Ok db' -> tracker_inv db' f.
Proof.
  unfold track_frame; induction dets as [|d dets IH]; simpl; intros db db' f Hinv H.
  - inversion H; subst; exact Hinv.
  - apply bind_Ok in H as (db1 & Hd & H).
    eapply IH; [|exact H]; eapply track_detection_inv; eassumption.
Qed.

Lemma frames_with_nr_above (i : Instance) (f n : Z) :
  (forall fr, In fr (frames i) -> frame_nr fr <= f) -> f < n ->
  frames_with_nr i n = [].
Proof.
  intros Hu Hlt; unfold frames_with_nr; apply filter_none.
  intros fr Hfr; specialize (Hu fr Hfr); apply Z.eqb_neq; lia.
Qed.

(** After [clean f] the store is ready for frame [f + 1]. *)
Lemma clean_inv (db : InstanceDB) (f : Z) :
  tracker_inv db f -> tracker_inv (fst (clean db f)) (f + 1).
Proof.
  intros [Hd Hc Ho Hu]; unfold clean; simpl.
  set (p := fun i => py_in (instance_id i) (get_instance_ids_in_frame db f)).
  constructor; simpl.
  - apply NoDup_map_filter; exact Hd.
  - rewrite Forall_forall in *; intros i Hi.
    apply filter_In in Hi as [Hi _]; auto.
  - rewrite Forall_forall; intros i Hi; apply filter_In in Hi as [Hi _].
    rewrite (@frames_with_nr_above i f (f + 1)); [simpl; lia | eauto | lia].
  - intros i fr Hi Hfr; apply filter_In in Hi as [Hi _].
    specialize (Hu i fr Hi Hfr); lia.
Qed.

Lemma tracker_inv_init : tracker_inv (InstanceDB_init None) 0.
Proof.
  constructor; simpl; try constructor; intros ? ? [].
Qed.

Lemma loop_body_inv (st st' : loop_state) (dets : list Detection) :
  tracker_inv (IDB st) (frameNr st) -> loop_body st dets = Ok st' ->
  tracker_inv (IDB st') (frameNr st').
Proof.
  intros Hinv H; unfold loop_body in H.
  apply bind_Ok in H as (db & Ht & H).
  pose proof (clean_inv (track_frame_inv _ Hinv Ht)) as Hc.
  destruct (clean db (frameNr st)) as [db' del]; inversion H; subst; exact Hc.
Qed.

Lemma foldM_loop_inv (video : list (list Detection)) : forall st st' : loop_state,
  tracker_inv (IDB st) (frameNr st) -> foldM loop_body st video = Ok st' ->
  tracker_inv (IDB st') (frameNr st').
Proof.
  induction video as [|dets video IH]; simpl; intros st st' Hinv H.
  - inversion H; subst; exact Hinv.
  - apply bind_Ok in H as (st1 & Hb & H).
    eapply IH; [|exact H]; eapply loop_body_inv; eassumption.
Qed.

Lemma main_loop_inv (video : list (list Detection)) (st : loop_state) :
  main_loop video = Ok st -> tracker_inv (IDB st) (frameNr st).
Proof.
  apply foldM_loop_inv, tracker_inv_init.
Qed.

Lemma main_loop_frameNr (video : list (list Detection)) (st : loop_state) :
  main_loop video = Ok st -> frameNr st = Z.of_nat (length video).
Proof.
  unfold main_loop.
  assert (G : forall st0 st', foldM loop_body st0 video = Ok st' ->
                              frameNr st' = frameNr st0 + Z.of_nat (length video)).
  { induction video as [|dets video IH]; simpl length; intros st0 st' H.
    - inversion H; simpl; lia.
    - simpl in H; apply bind_Ok in H as (st1 & Hb & H).
      rewrite (IH _ _ H), Nat2Z.inj_succ.
      unfold loop_body in Hb; apply bind_Ok in Hb as (db & _ & Hb).
      destruct (clean db (frameNr st0)); inversion Hb; simpl; lia. }
  intros H; rewrite (G _ _ H); reflexivity.
Qed.

(** C3.  In a run of the tracker loop from the empty store, after the
    detections of any frame [f] have been committed, whatever they are and
    in whatever order they come, [get_instance_ids_in_frame f] has no
    duplicate: no two detections of [f] were given the same id.  [video] is
    the frames before [f] and [dets] the detections of [f]. *)
Theorem one_claim_per_frame (video : list (list Detection)) (st : loop_state)
    (dets : list Detection) (db : InstanceDB) :
  main_loop video = Ok st ->
  track_frame (IDB st) (frameNr st) dets = Ok db ->
  frameNr st = Z.of_nat (length video)
  /\ NoDup (get_instance_ids_in_frame db (frameNr st))
  /\ distinct_ids db.
Proof.
  intros Hm Ht.
  pose proof (track_frame_inv _ (main_loop_inv _ Hm) Ht) as Hinv.
  split; [apply main_loop_frameNr; exact Hm | split].
  - apply tracker_inv_NoDup; exact Hinv.
  - apply Hinv.
Qed.

(** A contested claim: the instance of frame 0 is the best match of both
    detections of frame 1; the first continues id 1, the second gets id 2. *)
Lemma one_claim_per_frame_witness :
  let box := [(0, 0); (0, 1); (2, 1); (2, 0)] in
  let d := mkDetection "kicking" [[255; 255]; [0; 0]] box [] in
  let d' := mkDetection "kicking" [[255; 0]; [0; 0]] box [] in
  let fr0 := mkInstanceFrameData 0 [[255; 255]; [0; 0]] box [] in
  let fr1 := mkInstanceFrameData 1 [[255; 255]; [0; 0]] box [] in
  let fr1' := mkInstanceFrameData 1 [[255; 0]; [0; 0]] box [] in
  let st := mkLoop (mkInstanceDB [mkInstance 1 "kicking" [fr0]] 1) 1 [] in
  let db := mkInstanceDB [mkInstance 1 "kicking" [fr0; fr1];
                          mkInstance 2 "kicking" [fr1']] 2 in
  main_loop [[d]] = Ok st
  /\ track_frame (IDB st) (frameNr st) [d; d'] = Ok db
  /\ get_instance_ids_in_frame db 1 = [1; 2]
  /\ (frameNr st = Z.of_nat (length [[d]])
      /\ NoDup (get_instance_ids_in_frame db (frameNr st))
      /\ distinct_ids db).
Proof.
  intros box d d' fr0 fr1 fr1' st db.
  split; [reflexivity | split; [reflexivity | split; [reflexivity|]]].
  exact (@one_claim_per_frame [[d]] st [d; d'] db eq_refl eq_refl).
Defined.

(** ** The tracker loop does not raise on masks of one shape *)

Lemma zip_with_total {A B C} (f : A -> B -> C) (a : list A) : forall b : list B,
  length a = length b -> exists r, zip_with f a b = Some r /\ length r = length a.
Proof.
  induction a as [|x a IH]; intros [|y b] H; try discriminate.
  - exists []; auto.
  - injection H as H; destruct (IH b H) as (r & Hr & Hl).
    exists (f x y :: r); simpl; rewrite Hr, Hl; auto.
Qed.

Lemma zip_with2_total {A B C} (f : A -> B -> C) (a : list (list A)) :
  forall b : list (list B),
  Forall2 (fun r s => length r = length s) a b ->
  exists c, zip_with2 f a b = Some c
            /\ Forall2 (fun r s => length r = length s) c a.
Proof.
  induction a as [|r a IH]; intros b H; inversion H as [|? s ? b' Hrs Hab]; subst.
  - exists []; split; [reflexivity | constructor].
  - destruct (zip_with_total f r s Hrs) as (t & Ht & Hl).
    destruct (IH b' Hab) as (c & Hc & Hca).
    exists (t :: c); simpl; rewrite Ht, Hc; split; [reflexivity|].
    constructor; assumption.
Qed.

Lemma shape_same (w : nat) (a : image) : forall (b : image) (h : nat),
  shape h w a -> shape h w b -> same_shape a b.
Proof.
  unfold shape, same_shape.
  induction a as [|r a IH]; intros [|s b] h [Hla Ha] [Hlb Hb]; simpl in *;
    try lia; [constructor|].
  inversion Ha as [|? ? Hr Ha']; inversion Hb as [|? ? Hs Hb'].
  constructor; [lia|].
  apply (IH b (length a)); split; auto; lia.
Qed.

Lemma get_equal_white_pixel_count_total (a b : image) :
  same_shape a b -> exists c, get_equal_white_pixel_count a b = Some c.
Proof.
  intros H; unfold get_equal_white_pixel_count, np_equal, np_bitwise_and.
  destruct (zip_with2_total Z.eqb H) as (m & -> & Hm).
  destruct (zip_with2_total (fun (b : bool) x => Z.land (if b then 1 else 0) x) Hm)
    as (c & -> & _).
  eauto.
Qed.

Section OneShape.

Variables h w : nat.

Lemma mapM_total {A B} (f : A -> result B) (l : list A) :
  (forall a, In a l -> exists b, f a = Ok b) ->
  exists bs, mapM f l = Ok bs /\ length bs = length l.
Proof.
  induction l as [|a l IH]; simpl; intros H; [exists []; auto|].
  destruct (H a (or_introl eq_refl)) as (b & ->).
  destruct IH as (bs & -> & Hl); [intros; apply H; right; assumption|].
  exists (b :: bs); simpl; auto.
Qed.

Lemma choose_instanceid_total (db : InstanceDB) (f : Z) (d : Detection) :
  stored_shape h w db -> shape h w (inst_segm_mask d) ->
  exists r, choose_instanceid db f d = Ok r.
Proof.
  intros Hst Hd; unfold choose_instanceid.
  set (C := get_instances_of_type_in_frame db (det_label d) (f - 1)).
  assert (HC : forall c, In c C -> In c (_instances db) /\ has_frame c (f - 1) = true)
    by (intros c Hc; apply candidates_live in Hc; tauto).
  clearbody C.
  destruct (Z.ltb_spec 0 (Z.of_nat (length C))) as [Hlen|_]; [|eauto].
  destruct (@mapM_total _ _
              (fun prev_inst =>
                 fr <- get_frame_with_nr prev_inst (PyInt (f - 1)) ;;
                 c <- score_of (get_equal_white_pixel_count (segm_mask fr)
                                                            (inst_segm_mask d)) ;;
                 Ok (instance_id prev_inst, c)) C) as (IOUs & HI & Hl).
  { intros c Hc; destruct (HC c Hc) as [Hlive Hhas].
    destruct (get_frame_with_nr_found _ _ Hhas) as (fr & -> & Hin & _).
    simpl.
    destruct (get_equal_white_pixel_count_total
                (shape_same (Hst c fr Hlive Hin) Hd)) as (s & ->).
    simpl; eauto. }
  unfold IOUs_of; rewrite HI; simpl.
  destruct (sorted_desc IOUs) as [|[id s] rest] eqn:Hs.
  - apply (f_equal (@length _)) in Hs.
    rewrite <- (Permutation_length (sorted_desc_perm IOUs)), Hl in Hs.
    simpl in Hs; lia.
  - destruct (_ && _); eauto.
Qed.

Lemma append_frame_to_instance_shape (db : InstanceDB) (id : Z)
    (fr : InstanceFrameData) (lbl : string) :
  stored_shape h w db -> shape h w (segm_mask fr) ->
  snd (append_frame_to_instance db id fr (Some lbl)) = Ok tt
  /\ stored_shape h w (fst (append_frame_to_instance db id fr (Some lbl))).
Proof.
  intros Hst Hfr; rewrite append_frame_to_instance_eq.
  destruct (is_live db id); simpl; (split; [reflexivity|]); intros i fr' Hi Hfr'.
  - apply in_map_iff in Hi as (j & <- & Hj).
    unfold append_where in Hfr'; destruct (instance_id j =? id); [|eauto].
    simpl in Hfr'; apply in_app_iff in Hfr' as [H|[<-|[]]]; eauto.
  - apply in_app_iff in Hi as [Hi|[<-|[]]]; [eauto|].
    simpl in Hfr'; destruct Hfr' as [<-|[]]; exact Hfr.
Qed.

Lemma track_detection_total (db : InstanceDB) (f : Z) (d : Detection) :
  stored_shape h w db -> shape h w (inst_segm_mask d) ->
  exists db', track_detection db f d = Ok db' /\ stored_shape h w db'.
Proof.
  intros Hst Hd.
  destruct (@choose_instanceid_total db f d Hst Hd) as ([db1 id] & Hch).
  unfold track_detection; rewrite Hch; simpl.
  set (fr := mkInstanceFrameData f (inst_segm_mask d) (inst_segm_bbox d)
                                 (inst_segm_rbox d)).
  assert (Hst1 : stored_shape h w db1).
  { apply choose_instanceid_cases in Hch as [(-> & _) | (-> & _)]; exact Hst. }
  destruct (@append_frame_to_instance_shape db1 id fr (det_label d) Hst1 Hd)
    as [Hr Hs].
  destruct (append_frame_to_instance db1 id fr (Some (det_label d))) as [db2 r].
  simpl in *; subst r; simpl; eauto.
Qed.

Lemma track_frame_total (dets : list Detection) :
  forall (db : InstanceDB) (f : Z),
  stored_shape h w db -> Forall (fun d => shape h w (inst_segm_mask d)) dets ->
  exists db', track_frame db f dets = Ok db' /\ stored_shape h w db'.
Proof.
  unfold track_frame; induction dets as [|d dets IH]; simpl; intros db f Hst Hd.
  - eauto.
  - inversion Hd as [|? ? Hd1 Hds]; subst.
    destruct (@track_detection_total db f d Hst Hd1) as (db1 & -> & Hst1); simpl.
    apply IH; assumption.
Qed.

Lemma clean_shape (db : InstanceDB) (f : Z) :
  stored_shape h w db -> stored_shape h w (fst (clean db f)).
Proof.
  intros Hst i fr Hi; simpl in Hi; apply filter_In in Hi as [Hi _]; eauto.
Qed.

Lemma foldM_loop_total (video : list (list Detection)) :
  forall st : loop_state,
  stored_shape h w (IDB st) ->
  Forall (Forall (fun d => shape h w (inst_segm_mask d))) video ->
  exists st', foldM loop_body st video = Ok st'.
Proof.
  induction video as [|dets video IH]; simpl; intros st Hst Hv; [eauto|].
  inversion Hv as [|? ? Hd Hvs]; subst.
  destruct (@track_frame_total dets (IDB st) (frameNr st) Hst Hd) as (db & Ht & Hst').
  unfold loop_body at 1; rewrite Ht; cbn [bind].
  pose proof (@clean_shape db (frameNr st) Hst') as Hc.
  destruct (clean db (frameNr st)) as [db' del]; cbn [fst] in Hc.
  apply IH; [exact Hc | exact Hvs].
Qed.

(** When all masks of a video have one shape, the loop runs through every
    frame without raising. *)
Lemma main_loop_total (video : list (list Detection)) :
  Forall (Forall (fun d => shape h w (inst_segm_mask d))) video ->
  exists st, main_loop video = Ok st.
Proof.
  apply foldM_loop_total; intros i fr [].
Qed.

End OneShape.

(** ** The clean after the last frame *)

Lemma loop_body_recorded (st st' : loop_state) (dets : list Detection) :
  tracker_inv (IDB st) (frameNr st) -> loop_body st dets = Ok st' ->
  recorded_before (IDB st') (frameNr st').
Proof.
  intros Hinv H; unfold loop_body in H.
  apply bind_Ok in H as (db & Ht & H).
  pose proof (inv_upto (track_frame_inv _ Hinv Ht)) as Hu.
  unfold clean in H; inversion H; subst; simpl.
  intros i fr Hi Hfr; apply filter_In in Hi as [Hi _].
  specialize (Hu i fr Hi Hfr); lia.
Qed.

Lemma foldM_loop_recorded (video : list (list Detection)) :
  forall st st' : loop_state,
  tracker_inv (IDB st) (frameNr st) -> recorded_before (IDB st) (frameNr st) ->
  foldM loop_body st video = Ok st' ->
  recorded_before (IDB st') (frameNr st').
Proof.
  induction video as [|dets video IH]; simpl; intros st st' Hinv Hrec H.
  - inversion H; subst; exact Hrec.
  - apply bind_Ok in H as (st1 & Hb & H).
    eapply IH; [| |exact H].
    + eapply loop_body_inv; eassumption.
    + eapply loop_body_recorded; eassumption.
Qed.

(** The store at the end of the loop holds no frame numbered [frameNr] or
    above, so the last [clean] hands every live instance to the tube
    builder and leaves the store empty. *)
Lemma final_clean_evicts_all (video : list (list Detection)) (st : loop_state)
    (MIN_TUBE_LENGTH : Z) :
  main_loop video = Ok st ->
  let all := tubeslist st ++ map Tube_init (_instances (IDB st)) in
  finish MIN_TUBE_LENGTH st
  = (mkLoop (mkInstanceDB [] (_instanceid_cnt (IDB st))) (frameNr st) all,
     filter_tubes MIN_TUBE_LENGTH all).
Proof.
  intros H.
  assert (Hrec : recorded_before (IDB st) (frameNr st)).
  { apply (@foldM_loop_recorded video loop_init st);
      [exact tracker_inv_init | intros i fr [] | exact H]. }
  unfold finish.
  rewrite (clean_at_end Hrec); reflexivity.
Qed.

(** * Further properties *)

(** ** The store: what eviction keeps *)

Lemma filter_split_perm {A} (p : A -> bool) (l : list A) :
  Permutation (filter p l ++ filter (fun a => negb (p a)) l) l.
Proof.
  induction l as [|a l IH]; simpl; [constructor|].
  destruct (p a); simpl.
  - constructor; exact IH.
  - rewrite <- Permutation_middle; constructor; exact IH.
Qed.

Lemma clean_perm (db : InstanceDB) (n : Z) :
  Permutation (_instances (fst (clean db n)) ++ snd (clean db n)) (_instances db).
Proof.
  unfold clean; cbn [fst snd _instances].
  apply (filter_split_perm
           (fun i => py_in (instance_id i) (get_instance_ids_in_frame db n))).
Qed.

(** X1.  [clean] only sorts the live instances into two lists: the kept and
    the returned instances together are the instances from before, each as
    often as before and unchanged; no instance is in both lists; the lengths
    add up and the id counter stays. *)
Theorem clean_loses_nothing (db : InstanceDB) (n : Z) :
  Permutation (_instances (fst (clean db n)) ++ snd (clean db n)) (_instances db)
  /\ (forall i, In i (_instances (fst (clean db n))) -> ~ In i (snd (clean db n)))
  /\ InstanceDB_len (fst (clean db n)) + Z.of_nat (length (snd (clean db n)))
     = InstanceDB_len db
  /\ _instanceid_cnt (fst (clean db n)) = _instanceid_cnt db.
Proof.
  split; [apply clean_perm | split; [|split; [|reflexivity]]].
  - unfold clean; cbn [fst snd _instances]; intros i Hk Hd.
    apply filter_In in Hk as [_ Hk]; apply filter_In in Hd as [_ Hd].
    rewrite Hk in Hd; discriminate.
  - unfold InstanceDB_len.
    rewrite <- (Permutation_length (clean_perm db n)), length_app; lia.
Qed.

Lemma kept_ids_again (db : InstanceDB) (n : Z) (i : Instance) :
  In i (_instances (fst (clean db n))) ->
  py_in (instance_id i) (get_instance_ids_in_frame (fst (clean db n)) n) = true.
Proof.
  unfold clean; cbn [fst _instances]; intros Hi.
  apply filter_In in Hi as [Hi Hk].
  apply py_in_true, in_ids_in_frame in Hk as (j & Hj & Hid & Hf).
  apply py_in_true, in_ids_in_frame; exists j; cbn [_instances].
  split; [|split; assumption].
  apply filter_In; split; [exact Hj|].
  apply py_in_true, in_ids_in_frame; exists j; auto.
Qed.

(** X2.  [clean] is idempotent: a second [clean] with the same frame number
    returns nothing and leaves the store as the first one left it. *)
Theorem clean_idempotent (db : InstanceDB) (n : Z) :
  clean (fst (clean db n)) n = (fst (clean db n), []).
Proof.
  pose proof (kept_ids_again db n) as H.
  set (db1 := fst (clean db n)) in *.
  unfold clean at 1.
  rewrite (filter_all _ _ H).
  rewrite filter_none by (intros a Ha; rewrite (H a Ha); reflexivity).
  destruct db1; reflexivity.
Qed.

(** ** The store: looking an instance up *)

Lemma find_id_map_append_where (id id' : Z) (fr : InstanceFrameData)
    (l : list Instance) :
  find (fun i => instance_id i =? id') (map (append_where id fr) l)
  = option_map (append_where id fr) (find (fun i => instance_id i =? id') l).
Proof.
  induction l as [|i l IH]; simpl; [reflexivity|].
  rewrite append_where_id; destruct (instance_id i =? id'); [reflexivity | exact IH].
Qed.

Lemma find_id_absent (id : Z) (l : list Instance) :
  existsb (fun i => instance_id i =? id) l = false ->
  find (fun i => instance_id i =? id) l = None.
Proof.
  induction l as [|i l IH]; simpl; [reflexivity|].
  destruct (instance_id i =? id); simpl; [discriminate | exact IH].
Qed.

Lemma find_id_snoc (id' : Z) (l : list Instance) (x : Instance) :
  find (fun i => instance_id i =? id') (l ++ [x])
  = match find (fun i => instance_id i =? id') l with
    | Some i => Some i
    | None => if instance_id x =? id' then Some x else None
    end.
Proof.
  induction l as [|i l IH]; simpl; [reflexivity|].
  destruct (instance_id i =? id'); [reflexivity | exact IH].
Qed.

(** X3.  After [append_frame_to_instance id fr label] with a label,
    [get_instance_by_id id] finds an instance of that id whose last frame
    is [fr], and the lookup of every other id gives what it gave before. *)
Theorem lookup_after_append (db : InstanceDB) (id : Z) (fr : InstanceFrameData)
    (l : string) :
  let db' := fst (append_frame_to_instance db id fr (Some l)) in
  (exists i before, get_instance_by_id db' id = Some i
                    /\ instance_id i = id /\ frames i = before ++ [fr]
                    /\ match get_instance_by_id db id with
                       | Some old => instance_of i = instance_of old
                                     /\ before = frames old
                       | None => instance_of i = l /\ before = []
                       end)
  /\ (forall id', id' <> id -> get_instance_by_id db' id' = get_instance_by_id db id').
Proof.
  intros db'; subst db'; rewrite append_frame_to_instance_eq.
  unfold get_instance_by_id, is_live.
  destruct (existsb (fun i => instance_id i =? id) (_instances db)) eqn:L;
    cbn [fst _instances].
  - split.
    + rewrite find_id_map_append_where.
      destruct (find (fun i => instance_id i =? id) (_instances db)) as [old|] eqn:F.
      * apply find_some in F as [_ E].
        exists (append_where id fr old), (frames old); simpl.
        unfold append_where; rewrite E; simpl.
        apply Z.eqb_eq in E; auto.
      * apply existsb_exists in L as (i & Hi & E).
        rewrite (find_none _ _ F i Hi) in E; discriminate.
    + intros id' Hne; rewrite find_id_map_append_where.
      destruct (find (fun i => instance_id i =? id') (_instances db)) as [j|] eqn:F;
        [|reflexivity].
      apply find_some in F as [_ E]; apply Z.eqb_eq in E; simpl.
      unfold append_where; destruct (Z.eqb_spec (instance_id j) id); [lia | reflexivity].
  - split.
    + rewrite find_id_snoc, (find_id_absent _ _ L); simpl; rewrite Z.eqb_refl.
      exists (Instance_init id l fr), []; simpl; auto.
    + intros id' Hne; rewrite find_id_snoc; simpl.
      destruct (find (fun i => instance_id i =? id') (_instances db)); [reflexivity|].
      destruct (Z.eqb_spec id id'); [lia | reflexivity].
Qed.

(** ** The store: the three queries of a frame *)

Lemma filter_const_map {A B} (p : B -> bool) (b : B) (l : list A) :
  filter p (map (fun _ => b) l) = if p b then map (fun _ => b) l else [].
Proof.
  induction l as [|a l IH]; simpl; [destruct (p b); reflexivity|].
  rewrite IH; destruct (p b); reflexivity.
Qed.

(** X4.  The three queries agree: the ids of [get_instances_in_frame] are
    [get_instance_ids_in_frame], entry by entry, and
    [get_instances_of_type_in_frame] is [get_instances_in_frame] restricted
    to the instances of the label, in the same order. *)
Theorem frame_queries_agree (db : InstanceDB) (lbl : string) (n : Z) :
  map instance_id (get_instances_in_frame db n) = get_instance_ids_in_frame db n
  /\ get_instances_of_type_in_frame db lbl n
     = filter (fun i => String.eqb (instance_of i) lbl) (get_instances_in_frame db n).
Proof.
  unfold get_instances_in_frame, get_instance_ids_in_frame,
    get_instances_of_type_in_frame.
  induction (_instances db) as [|i l [IH1 IH2]]; simpl; [split; reflexivity|].
  split.
  - rewrite map_app, map_map, IH1; reflexivity.
  - rewrite filter_app, IH2, filter_const_map; reflexivity.
Qed.

Lemma in_instances_in_frame (db : InstanceDB) (n : Z) (i : Instance) :
  In i (get_instances_in_frame db n)
  <-> In i (_instances db) /\ has_frame i n = true.
Proof.
  unfold get_instances_in_frame; rewrite in_flat_map; split.
  - intros (j & Hj & Hi).
    assert (Hne : frames_with_nr j n <> [])
      by (intros E; rewrite E in Hi; contradiction).
    apply in_map_iff in Hi as (_ & <- & _).
    split; [exact Hj | apply has_frame_frames_with_nr; exact Hne].
  - intros [Hi Hf]; exists i; split; [exact Hi|].
    apply has_frame_frames_with_nr in Hf.
    destruct (frames_with_nr i n); [congruence | left; reflexivity].
Qed.

(** X5.  Every instance that [get_instances_in_frame] or
    [get_instances_of_type_in_frame] returns for a frame number has a frame
    of that number, so [get_frame_with_nr] with the same number returns one
    and does not raise: the lookups of the drawing loop and of the scoring
    cannot fail. *)
Theorem frame_lookup_of_query_succeeds (db : InstanceDB) (lbl : string) (n : Z) :
  Forall (fun i => exists fr, get_frame_with_nr i (PyInt n) = Ok fr
                              /\ In fr (frames i) /\ frame_nr fr = n)
         (get_instances_in_frame db n)
  /\ Forall (fun i => exists fr, get_frame_with_nr i (PyInt n) = Ok fr
                                 /\ In fr (frames i) /\ frame_nr fr = n)
            (get_instances_of_type_in_frame db lbl n).
Proof.
  split; apply Forall_forall; intros i Hi; apply get_frame_with_nr_found.
  - apply in_instances_in_frame in Hi; tauto.
  - apply candidates_live in Hi; tauto.
Qed.

(** ** The score on images of any gray values *)

Lemma land_1_odd (x : Z) : Z.land 1 x = if Z.odd x then 1 else 0.
Proof.
  rewrite Z.land_comm; change 1 with (Z.ones 1) at 1.
  rewrite Z.land_ones by lia; change (2 ^ 1) with 2; apply Zmod_odd.
Qed.

Lemma equal_odd_pixel (x y : Z) :
  nonzero (Z.land (if x =? y then 1 else 0) x) = (x =? y) && Z.odd x.
Proof.
  unfold nonzero; destruct (x =? y); cbn [andb]; [|reflexivity].
  rewrite land_1_odd; destruct (Z.odd x); reflexivity.
Qed.

Lemma score_any_row (r : list Z) : forall s : list Z,
  length r = length s ->
  exists m t,
    zip_with Z.eqb r s = Some m
    /\ zip_with (fun (b : bool) x => Z.land (if b then 1 else 0) x) m r = Some t
    /\ Z.of_nat (length (filter nonzero t)) = equal_odd_row r s.
Proof.
  induction r as [|x r IH]; intros [|y s] Hlen; try discriminate.
  - exists [], []; auto.
  - injection Hlen as Hlen.
    destruct (IH s Hlen) as (m & t & Hm & Ht & Hc).
    exists ((x =? y) :: m), (Z.land (if x =? y then 1 else 0) x :: t).
    cbn [zip_with equal_odd_row]; rewrite Hm, Ht; repeat split.
    rewrite count_cons, Hc, equal_odd_pixel; reflexivity.
Qed.

Lemma score_any_image (a b : image) :
  same_shape a b ->
  get_equal_white_pixel_count a b = Some (equal_odd_count a b).
Proof.
  unfold get_equal_white_pixel_count, np_equal, np_bitwise_and, np_count_nonzero,
    same_shape.
  assert (G : Forall2 (fun r s : list Z => length r = length s) a b ->
              exists m c,
                zip_with2 Z.eqb a b = Some m
                /\ zip_with2 (fun (b : bool) x => Z.land (if b then 1 else 0) x) m a
                   = Some c
                /\ Z.of_nat (length (filter nonzero (concat c))) = equal_odd_count a b).
  { induction 1 as [|r s a b Hlen Hsh IH].
    - exists [], []; auto.
    - destruct (score_any_row r s Hlen) as (m & t & Hm & Ht & Hc).
      destruct IH as (ms & c & Hms & Hcs & Hcc).
      exists (m :: ms), (t :: c); simpl.
      rewrite Hm, Hms, Ht, Hcs; repeat split.
      rewrite filter_app, length_app, Nat2Z.inj_add, Hc, Hcc; reflexivity. }
  intros H; destruct (G H) as (m & c & -> & -> & Hc).
  unfold nonzero in Hc; rewrite Hc; reflexivity.
Qed.

Lemma zip_with_Some_length {A B C} (f : A -> B -> C) (a : list A) :
  forall (b : list B) (c : list C), zip_with f a b = Some c -> length a = length b.
Proof.
  induction a as [|x a IH]; intros [|y b] c H; simpl in H; try discriminate;
    [reflexivity|].
  destruct (zip_with f a b) as [r|] eqn:E; [|discriminate].
  simpl; f_equal; eapply IH; exact E.
Qed.

Lemma zip_with2_Some_shape {A B C} (f : A -> B -> C) (a : list (list A)) :
  forall (b : list (list B)) (c : list (list C)),
  zip_with2 f a b = Some c -> Forall2 (fun r s => length r = length s) a b.
Proof.
  induction a as [|r a IH]; intros [|s b] c H; simpl in H; try discriminate;
    [constructor|].
  destruct (zip_with f r s) as [t|] eqn:Er; [|discriminate].
  destruct (zip_with2 f a b) as [u|] eqn:Ea; [|discriminate].
  constructor; [eapply zip_with_Some_length; exact Er | eapply IH; exact Ea].
Qed.

Lemma score_Some_shape (a b : image) (c : Z) :
  get_equal_white_pixel_count a b = Some c -> same_shape a b.
Proof.
  unfold get_equal_white_pixel_count, np_equal; intros H.
  destruct (zip_with2 Z.eqb a b) as [m|] eqn:E; [|discriminate].
  eapply zip_with2_Some_shape; exact E.
Qed.

Lemma same_shape_sym (a b : image) : same_shape a b -> same_shape b a.
Proof.
  unfold same_shape; induction 1; constructor; auto.
Qed.

Lemma equal_odd_row_sym (r : list Z) : forall s, equal_odd_row r s = equal_odd_row s r.
Proof.
  induction r as [|x r IH]; intros [|y s]; simpl; try reflexivity.
  rewrite IH, (Z.eqb_sym y x).
  destruct (Z.eqb_spec x y) as [->|]; reflexivity.
Qed.

Lemma equal_odd_count_sym (a : image) : forall b, equal_odd_count a b = equal_odd_count b a.
Proof.
  induction a as [|r a IH]; intros [|s b]; simpl; try reflexivity.
  rewrite IH, equal_odd_row_sym; reflexivity.
Qed.

Lemma equal_odd_row_bounds (r : list Z) : forall s,
  0 <= equal_odd_row r s <= Z.of_nat (length r).
Proof.
  induction r as [|x r IH]; intros [|y s]; simpl length; cbn [equal_odd_row];
    try lia.
  specialize (IH s); destruct ((x =? y) && Z.odd x); lia.
Qed.

Lemma equal_odd_count_bounds (a : image) : forall b,
  0 <= equal_odd_count a b <= pixels a.
Proof.
  unfold pixels; induction a as [|r a IH]; intros [|s b]; cbn [equal_odd_count].
  - simpl; lia.
  - simpl; lia.
  - lia.
  - cbn [concat]; rewrite length_app, Nat2Z.inj_add.
    specialize (IH b); pose proof (equal_odd_row_bounds r s); lia.
Qed.

(** X6.  For two images of the same shape, whatever their gray values,
    [get_equal_white_pixel_count] is the number of positions where the two
    pixels are equal and odd (the comparison gives a [bool] array and
    [bitwise_and] keeps only the lowest bit of [img1]); it lies between 0
    and the number of pixels. *)
Theorem score_counts_equal_odd_pixels (img1 img2 : image) :
  same_shape img1 img2 ->
  get_equal_white_pixel_count img1 img2 = Some (equal_odd_count img1 img2)
  /\ 0 <= equal_odd_count img1 img2 <= pixels img1.
Proof.
  intros H; split; [apply score_any_image, H | apply equal_odd_count_bounds].
Qed.

Lemma score_counts_equal_odd_pixels_witness :
  get_equal_white_pixel_count [[255; 2; 7]; [0; 7; 128]] [[255; 2; 9]; [0; 7; 128]]
  = Some (equal_odd_count [[255; 2; 7]; [0; 7; 128]] [[255; 2; 9]; [0; 7; 128]])
  /\ 0 <= equal_odd_count [[255; 2; 7]; [0; 7; 128]] [[255; 2; 9]; [0; 7; 128]]
     <= pixels [[255; 2; 7]; [0; 7; 128]].
Proof.
  apply (@score_counts_equal_odd_pixels
           [[255; 2; 7]; [0; 7; 128]] [[255; 2; 9]; [0; 7; 128]]).
  repeat (apply Forall2_cons || apply Forall2_nil); reflexivity.
Defined.

(** X7.  The score is symmetric: exchanging the two images gives the same
    count, and the same failure when the shapes differ. *)
Theorem score_symmetric (img1 img2 : image) :
  get_equal_white_pixel_count img1 img2 = get_equal_white_pixel_count img2 img1.
Proof.
  destruct (get_equal_white_pixel_count img1 img2) as [c|] eqn:E1.
  - pose proof (score_Some_shape _ _ E1) as H.
    rewrite (score_any_image H) in E1.
    rewrite (score_any_image (same_shape_sym H)), equal_odd_count_sym; symmetry; exact E1.
  - destruct (get_equal_white_pixel_count img2 img1) as [c|] eqn:E2; [|reflexivity].
    pose proof (same_shape_sym (score_Some_shape _ _ E2)) as H.
    rewrite (score_any_image H) in E1; discriminate.
Qed.

(** ** The tube: enclosure without conditions *)

Lemma lowers_below (vs : list Z) (v : Z) :
  In v vs -> exists lo, lowers vs PosInf = Num lo /\ lo <= v.
Proof.
  intros Hv.
  destruct (@lowers_PosInf vs) as (lo & E & _ & Hall).
  - intros ->; contradiction.
  - exists lo; split; [exact E|].
    rewrite Forall_forall in Hall; apply Hall, Hv.
Qed.

Lemma uppers_above (vs : list Z) (v : Z) : In v vs -> v <= uppers vs 0.
Proof.
  intros Hv; destruct (uppers_spec vs 0) as (_ & Hall & _).
  rewrite Forall_forall in Hall; apply Hall, Hv.
Qed.

(** X8.  For every instance, with coordinates and frame numbers of any
    sign, the tube encloses all there is: every frame number lies in
    [min_frame, max_frame] and every corner in the box.  The upper bounds
    are never negative, and each is 0 or attained. *)
Theorem Tube_encloses (i : Instance) :
  let t := Tube_init i in
  (forall fr, In fr (frames i) ->
      exists lo, min_frame t = Num lo /\ lo <= frame_nr fr <= max_frame t)
  /\ (forall p, In p (corners i) ->
      exists x0 y0, min_x t = Num x0 /\ min_y t = Num y0
                    /\ x0 <= fst p <= max_x t /\ y0 <= snd p <= max_y t)
  /\ (0 <= max_frame t /\ (max_frame t = 0 \/ In (max_frame t) (map frame_nr (frames i))))
  /\ (0 <= max_x t /\ (max_x t = 0 \/ In (max_x t) (map fst (corners i))))
  /\ (0 <= max_y t /\ (max_y t = 0 \/ In (max_y t) (map snd (corners i)))).
Proof.
  intros t; subst t; rewrite Tube_init_eq; simpl.
  split; [|split; [|split; [|split]]].
  - intros fr Hfr.
    assert (Hin : In (frame_nr fr) (map frame_nr (frames i))) by (apply in_map, Hfr).
    destruct (lowers_below _ _ Hin) as (lo & -> & Hlo).
    exists lo; split; [reflexivity|]; split; [exact Hlo | apply uppers_above, Hin].
  - intros p Hp.
    assert (Hx : In (fst p) (map fst (corners i))) by (apply in_map, Hp).
    assert (Hy : In (snd p) (map snd (corners i))) by (apply in_map, Hp).
    destruct (lowers_below _ _ Hx) as (x0 & -> & Hx0).
    destruct (lowers_below _ _ Hy) as (y0 & -> & Hy0).
    exists x0, y0; repeat split; auto using uppers_above.
  - destruct (uppers_spec (map frame_nr (frames i)) 0) as (H0 & _ & H); auto.
  - destruct (uppers_spec (map fst (corners i)) 0) as (H0 & _ & H); auto.
  - destruct (uppers_spec (map snd (corners i)) 0) as (H0 & _ & H); auto.
Qed.

(** ** The run: what one detection does to the store *)

Lemma existsb_id_false (id : Z) (l : list Instance) :
  ~ In id (map instance_id l) ->
  existsb (fun i => instance_id i =? id) l = false.
Proof.
  intros H; destruct (existsb _ l) eqn:E; [|reflexivity].
  exfalso; apply H; apply existsb_exists in E as (i & Hi & Hid).
  apply Z.eqb_eq in Hid; subst; apply in_map, Hi.
Qed.

Lemma map_append_where_split (l1 l2 : list Instance) (c : Instance)
    (fr : InstanceFrameData) :
  NoDup (map instance_id (l1 ++ c :: l2)) ->
  map (append_where (instance_id c) fr) (l1 ++ c :: l2)
  = l1 ++ append_frame c fr :: l2.
Proof.
  intros Hd; rewrite map_app in Hd; simpl in Hd.
  apply NoDup_remove_2 in Hd.
  rewrite map_app; simpl.
  unfold append_where at 2; rewrite Z.eqb_refl.
  rewrite !map_append_where_absent; [reflexivity | |];
    apply existsb_id_false; intros H; apply Hd, in_or_app; auto.
Qed.

(** A detection either continues one live instance of its label, seen in
    the previous frame and not yet in this one, or opens a new instance at
    the end of the store under the next id. *)
Lemma track_detection_step (db db' : InstanceDB) (f : Z) (d : Detection) :
  tracker_inv db f -> track_detection db f d = Ok db' ->
  (exists l1 c l2,
      _instances db = l1 ++ c :: l2
      /\ instance_of c = det_label d
      /\ has_frame c (f - 1) = true
      /\ frames_with_nr c f = []
      /\ _instances db' = l1 ++ append_frame c (det_record f d) :: l2
      /\ _instanceid_cnt db' = _instanceid_cnt db)
  \/ (_instances db'
      = _instances db
        ++ [Instance_init (_instanceid_cnt db + 1) (det_label d) (det_record f d)]
      /\ _instanceid_cnt db' = _instanceid_cnt db + 1).
Proof.
  intros Hinv H; unfold track_detection in H.
  apply bind_Ok in H as ([db1 id] & Hch & H).
  fold (det_record f d) in H.
  rewrite append_frame_to_instance_eq in H.
  apply choose_instanceid_rule in Hch
    as [(-> & (c & s & Hc & <- & _) & Hnew) | E].
  - left.
    apply candidates_live in Hc as (Hin & Hlbl & Hprev).
    assert (L : is_live db (instance_id c) = true)
      by (apply is_live_iff, in_map, Hin).
    rewrite L in H; simpl in H; inversion H; subst db'; clear H.
    destruct (in_split _ _ Hin) as (l1 & l2 & E).
    exists l1, c, l2; repeat split; auto.
    + destruct (frames_with_nr c f) eqn:Hfw; [reflexivity|].
      exfalso; apply Hnew, in_ids_in_frame; exists c.
      split; [exact Hin | split; [reflexivity|]].
      apply has_frame_frames_with_nr; rewrite Hfw; discriminate.
    + cbn [_instances]; rewrite E; apply map_append_where_split.
      rewrite <- E; apply Hinv.
  - right; inversion E; subst db1 id; clear E.
    assert (L : is_live (mkInstanceDB (_instances db) (_instanceid_cnt db + 1))
                        (_instanceid_cnt db + 1) = false).
    { destruct (is_live _ _) eqn:L; [|reflexivity].
      apply is_live_iff in L; cbn [_instances] in L.
      apply in_map_iff in L as (i & Hid & Hi).
      pose proof (inv_cnt Hinv) as Hc; rewrite Forall_forall in Hc.
      specialize (Hc i Hi); lia. }
    rewrite L in H; simpl in H; inversion H; subst db'; split; reflexivity.
Qed.

(** ** The run: histories without gaps *)

Lemma consecutive_snoc (a : Z) (n : nat) :
  consecutive a (S n) = consecutive a n ++ [a + Z.of_nat n].
Proof.
  unfold consecutive; rewrite seq_S, map_app; reflexivity.
Qed.

Lemma in_consecutive (a v : Z) (n : nat) :
  In v (consecutive a n) <-> a <= v < a + Z.of_nat n.
Proof.
  unfold consecutive; rewrite in_map_iff; split.
  - intros (k & <- & Hk); apply in_seq in Hk; lia.
  - intros H; exists (Z.to_nat (v - a)); split; [lia | apply in_seq; lia].
Qed.

Lemma has_frame_in_numbers (i : Instance) (v : Z) :
  has_frame i v = true <-> In v (frame_numbers i).
Proof.
  unfold has_frame, frame_numbers; rewrite existsb_exists, in_map_iff; split.
  - intros (fr & Hfr & E); apply Z.eqb_eq in E; eauto.
  - intros (fr & E & Hfr); exists fr; split; [exact Hfr | apply Z.eqb_eq, E].
Qed.

Lemma history_has_frame (last v : Z) (i : Instance) :
  history_until last i ->
  has_frame i v = true -> 0 <= v <= last.
Proof.
  intros (a & n & Ha & E & Hl) H.
  apply has_frame_in_numbers in H; rewrite E in H.
  apply in_consecutive in H; lia.
Qed.

Lemma history_has_last (last : Z) (i : Instance) :
  history_until last i -> has_frame i last = true.
Proof.
  intros (a & n & Ha & E & Hl).
  apply has_frame_in_numbers; rewrite E; apply in_consecutive; lia.
Qed.

Lemma history_extend (f : Z) (c : Instance) (fr : InstanceFrameData) :
  frame_nr fr = f -> frames_with_nr c f = [] ->
  history_until (f - 1) c \/ history_until f c ->
  history_until f (append_frame c fr).
Proof.
  intros Hf Hno [H|H].
  - destruct H as (a & n & Ha & E & Hl).
    exists a, (S n); split; [exact Ha | split; [|lia]].
    unfold frame_numbers in *; cbn [append_frame frames].
    rewrite map_app, E, (consecutive_snoc a (S n)); cbn [map].
    f_equal; f_equal; lia.
  - apply history_has_last, has_frame_frames_with_nr in H; contradiction.
Qed.

Lemma history_new (f : Z) (id : Z) (l : string) (fr : InstanceFrameData) :
  0 <= f -> frame_nr fr = f -> history_until f (Instance_init id l fr).
Proof.
  intros H0 Hf; exists f, 0%nat; split; [exact H0 | split; [|lia]].
  unfold frame_numbers, consecutive; simpl; rewrite Hf; f_equal; lia.
Qed.

Lemma history_min_max (last : Z) (i : Instance) :
  history_until last i ->
  exists a n, 0 <= a /\ a + Z.of_nat n = last
              /\ frame_numbers i = consecutive a (S n)
              /\ min_frame (Tube_init i) = Num a
              /\ max_frame (Tube_init i) = last.
Proof.
  intros (a & n & Ha & E & Hl); exists a, n.
  split; [exact Ha | split; [exact Hl | split; [exact E|]]].
  rewrite Tube_init_eq; simpl; fold (frame_numbers i); rewrite E.
  assert (Hne : consecutive a (S n) <> []) by discriminate.
  assert (Hpos : Forall (fun v => 0 <= v) (consecutive a (S n))).
  { apply Forall_forall; intros v Hv; apply in_consecutive in Hv; lia. }
  destruct (lowers_PosInf Hne) as (lo & -> & Hin & Hall).
  destruct (uppers_nonneg Hne Hpos) as [Hin' Hall'].
  rewrite Forall_forall in Hall, Hall'.
  apply in_consecutive in Hin, Hin'.
  assert (Ha' : In a (consecutive a (S n))) by (apply in_consecutive; lia).
  assert (Hl' : In last (consecutive a (S n))) by (apply in_consecutive; lia).
  specialize (Hall a Ha'); specialize (Hall' last Hl').
  split; [f_equal|]; lia.
Qed.

(** ** The run: the invariant of a frame and of the loop *)

Lemma records_at_app (l1 l2 : list Instance) (c : Z) (f : Z) :
  records_at (mkInstanceDB (l1 ++ l2) c) f
  = records_at (mkInstanceDB l1 c) f ++ records_at (mkInstanceDB l2 c) f.
Proof. unfold records_at; simpl; apply flat_map_app. Qed.

Lemma records_at_instances (db : InstanceDB) (f : Z) :
  records_at db f = records_at (mkInstanceDB (_instances db) 0) f.
Proof. reflexivity. Qed.

Lemma consecutive_next (c : Z) :
  0 <= c ->
  consecutive 1 (Z.to_nat (c + 1)) = consecutive 1 (Z.to_nat c) ++ [c + 1].
Proof.
  intros H; replace (Z.to_nat (c + 1)) with (S (Z.to_nat c)) by lia.
  rewrite consecutive_snoc; do 2 f_equal; lia.
Qed.

Lemma track_detection_frame_inv (tubes : list Tube) (f : Z) (done : list Detection)
    (db db' : InstanceDB) (d : Detection) :
  0 <= f -> frame_inv tubes f done db -> track_detection db f d = Ok db' ->
  frame_inv tubes f (done ++ [d]) db'.
Proof.
  intros Hf [Ht Hh Hc Hi Hd] H.
  pose proof (@track_detection_inv db db' f d Ht H) as Ht'.
  apply track_detection_step in H
    as [(l1 & c & l2 & E & Hlbl & _ & Hno & E' & Hcnt) | (E' & Hcnt)];
    [| |exact Ht].
  - constructor; [exact Ht' | | lia | |].
    + rewrite E'; rewrite E in Hh.
      apply Forall_app in Hh as [H1 H2]; inversion H2 as [|? ? Hc0 H2']; subst.
      apply Forall_app; split; [exact H1|].
      constructor; [|exact H2'].
      right; apply history_extend; auto.
    + rewrite Hcnt, E'; rewrite E in Hi.
      rewrite !map_app in *; exact Hi.
    + rewrite records_at_instances, E', records_at_app.
      rewrite records_at_instances, E, records_at_app in Hd.
      unfold records_at at 2; unfold records_at at 2 in Hd.
      cbn [_instances flat_map] in *.
      rewrite frames_with_nr_append, Hno in *.
      change (frame_nr (det_record f d)) with f; rewrite Z.eqb_refl.
      cbn [app map] in *; cbn [append_frame instance_of].
      rewrite map_app; cbn [map]; rewrite Hlbl.
      etransitivity; [symmetry; apply Permutation_middle|].
      etransitivity; [|apply Permutation_cons_append].
      constructor; exact Hd.
  - constructor; [exact Ht' | | lia | |].
    + rewrite E'; apply Forall_app; split; [exact Hh|].
      constructor; [|constructor].
      right; apply history_new; [exact Hf | reflexivity].
    + rewrite Hcnt, E', consecutive_next by exact Hc.
      rewrite map_app, app_assoc; cbn [map Instance_init instance_id].
      apply Permutation_app_tail; exact Hi.
    + rewrite records_at_instances, E', records_at_app, <- records_at_instances.
      unfold records_at at 2; cbn [_instances flat_map].
      unfold Instance_init, frames_with_nr; cbn [frames filter instance_of].
      change (frame_nr (det_record f d)) with f; rewrite Z.eqb_refl.
      cbn [map app]; rewrite map_app; cbn [map].
      apply Permutation_app_tail; exact Hd.
Qed.

Lemma track_frame_frame_inv (tubes : list Tube) (f : Z) (dets : list Detection) :
  forall (done : list Detection) (db db' : InstanceDB),
  0 <= f -> frame_inv tubes f done db -> track_frame db f dets = Ok db' ->
  frame_inv tubes f (done ++ dets) db'.
Proof.
  unfold track_frame; induction dets as [|d dets IH]; simpl; intros done db db' Hf Hi H.
  - inversion H; subst; rewrite app_nil_r; exact Hi.
  - apply bind_Ok in H as (db1 & Hd & H).
    replace (done ++ d :: dets) with ((done ++ [d]) ++ dets)
      by (rewrite <- app_assoc; reflexivity).
    eapply IH; [exact Hf | | exact H].
    eapply track_detection_frame_inv; eassumption.
Qed.

Lemma no_frame_after_history (f : Z) (i : Instance) :
  history_until (f - 1) i -> frames_with_nr i f = [].
Proof.
  intros H; destruct (frames_with_nr i f) eqn:E; [reflexivity|].
  assert (Hf : has_frame i f = true)
    by (apply has_frame_frames_with_nr; rewrite E; discriminate).
  pose proof (@history_has_frame (f - 1) f i H Hf); lia.
Qed.

Lemma records_at_none (db : InstanceDB) (f : Z) :
  Forall (history_until (f - 1)) (_instances db) -> records_at db f = [].
Proof.
  unfold records_at; induction 1 as [|i l Hi0 Hl IH]; simpl; [reflexivity|].
  rewrite (@no_frame_after_history f i Hi0); simpl; exact IH.
Qed.

Lemma loop_inv_frame_inv (st : loop_state) :
  loop_inv st -> frame_inv (tubeslist st) (frameNr st) [] (IDB st).
Proof.
  intros [Hf Ht Hh Htu Hc Hi]; constructor; auto.
  - eapply Forall_impl; [|exact Hh]; auto.
  - rewrite (@records_at_none (IDB st) (frameNr st) Hh); constructor.
Qed.

Lemma clean_by_has_frame (db : InstanceDB) (f : Z) :
  distinct_ids db ->
  clean db f
  = (mkInstanceDB (filter (fun i => has_frame i f) (_instances db))
                  (_instanceid_cnt db),
     filter (fun i => negb (has_frame i f)) (_instances db)).
Proof.
  intros Hd; unfold clean; f_equal; [f_equal|]; apply filter_ext_in; intros i Hi;
    rewrite (@keep_id_iff_has_frame db f i Hd Hi); reflexivity.
Qed.

Lemma tube_span_weaken (f g : Z) (t : Tube) : f <= g -> tube_span f t -> tube_span g t.
Proof.
  intros Hfg (a & n & Ha & Emin & Emax & Hlt); exists a, n; repeat split; auto; lia.
Qed.

Lemma history_tube_span (f : Z) (i : Instance) :
  history_until (f - 1) i -> tube_span f (Tube_init i).
Proof.
  intros H; destruct (@history_min_max (f - 1) i H) as (a & n & Ha & Hl & _ & Emin & Emax).
  exists a, n; repeat split; auto; lia.
Qed.

Lemma frame_inv_clean (tubes : list Tube) (f : Z) (done : list Detection)
    (db : InstanceDB) :
  0 <= f -> Forall (tube_span f) tubes -> frame_inv tubes f done db ->
  loop_inv (mkLoop (fst (clean db f)) (f + 1)
                   (tubes ++ map Tube_init (snd (clean db f)))).
Proof.
  intros Hf Htu [Ht Hh Hc Hi Hd].
  pose proof (@clean_inv db f Ht) as Ht'.
  pose proof (clean_perm db f) as Hp.
  rewrite (@clean_by_has_frame db f (inv_distinct Ht)) in Hp |- *.
  rewrite (@clean_by_has_frame db f (inv_distinct Ht)) in Ht'.
  cbn [fst snd _instances] in *.
  rewrite Forall_forall in Hh.
  constructor; cbn [IDB frameNr tubeslist _instances _instanceid_cnt];
    [lia | exact Ht' | | | exact Hc |].
  - apply Forall_forall; intros i Hin; apply filter_In in Hin as [Hin Hhas].
    replace (f + 1 - 1) with f by lia.
    destruct (Hh i Hin) as [H|H]; [|exact H].
    pose proof (@history_has_frame (f - 1) f i H Hhas); lia.
  - apply Forall_forall; intros t Hin; apply in_app_iff in Hin as [Hin|Hin].
    + apply tube_span_weaken with f; [lia|].
      rewrite Forall_forall in Htu; apply Htu, Hin.
    + apply in_map_iff in Hin as (i & <- & Hin); apply filter_In in Hin as [Hin Hhas].
      apply tube_span_weaken with f; [lia|]; apply history_tube_span.
      destruct (Hh i Hin) as [H|H]; [exact H|].
      apply history_has_last in H; rewrite H in Hhas; discriminate.
  - rewrite map_app, map_map, <- app_assoc.
    etransitivity; [|exact Hi].
    apply Permutation_app_head.
    change (map (fun x => tube_id (Tube_init x))) with (map instance_id).
    rewrite <- map_app; apply Permutation_map.
    etransitivity; [apply Permutation_app_comm | exact Hp].
Qed.

Lemma loop_body_loop_inv (st st' : loop_state) (dets : list Detection) :
  loop_inv st -> loop_body st dets = Ok st' -> loop_inv st'.
Proof.
  intros Hinv H; unfold loop_body in H.
  apply bind_Ok in H as (db & Ht & H).
  pose proof (@track_frame_frame_inv (tubeslist st) (frameNr st) dets [] (IDB st) db
                (li_frame Hinv) (loop_inv_frame_inv Hinv) Ht) as Hf.
  pose proof (@frame_inv_clean (tubeslist st) (frameNr st) ([] ++ dets) db
                (li_frame Hinv) (li_tubes Hinv) Hf) as Hc.
  destruct (clean db (frameNr st)) as [db' del]; inversion H; subst; exact Hc.
Qed.

Lemma loop_inv_init : loop_inv loop_init.
Proof.
  constructor; cbn [loop_init IDB frameNr tubeslist InstanceDB_init _instances
                    _instanceid_cnt map app Z.to_nat].
  - lia.
  - exact tracker_inv_init.
  - constructor.
  - constructor.
  - lia.
  - constructor.
Qed.

Lemma foldM_loop_loop_inv (video : list (list Detection)) :
  forall st st' : loop_state,
  loop_inv st -> foldM loop_body st video = Ok st' -> loop_inv st'.
Proof.
  induction video as [|dets video IH]; simpl; intros st st' Hinv H.
  - inversion H; subst; exact Hinv.
  - apply bind_Ok in H as (st1 & Hb & H).
    eapply IH; [|exact H]; eapply loop_body_loop_inv; eassumption.
Qed.

Lemma main_loop_loop_inv (video : list (list Detection)) (st : loop_state) :
  main_loop video = Ok st -> loop_inv st.
Proof.
  apply foldM_loop_loop_inv, loop_inv_init.
Qed.

(** X10.  Before every frame of a run, each live instance has a history
    without gaps that reaches the previous frame: its frame numbers are
    consecutive, start at 0 or later, and end at [frameNr - 1], where
    [frameNr] is the number of frames processed. *)
Theorem live_histories_have_no_gap (video : list (list Detection))
    (st : loop_state) :
  main_loop video = Ok st ->
  frameNr st = Z.of_nat (length video)
  /\ Forall (fun i => exists a n,
                 0 <= a /\ frame_numbers i = consecutive a (S n)
                 /\ a + Z.of_nat n = Z.of_nat (length video) - 1)
            (_instances (IDB st)).
Proof.
  intros H; pose proof (main_loop_frameNr _ H) as Hf.
  split; [exact Hf|].
  rewrite <- Hf; exact (li_hist (main_loop_loop_inv _ H)).
Qed.

Lemma live_histories_have_no_gap_witness :
  let d := mkDetection "kicking" [[255]] [(0, 0); (0, 1); (1, 1); (1, 0)] [] in
  let fr k := mkInstanceFrameData k [[255]] [(0, 0); (0, 1); (1, 1); (1, 0)] [] in
  let st := mkLoop (mkInstanceDB [mkInstance 1 "kicking" [fr 0; fr 1]] 1) 2 [] in
  main_loop [[d]; [d]] = Ok st
  /\ frameNr st = Z.of_nat (length [[d]; [d]])
  /\ Forall (fun i => exists a n,
                 0 <= a /\ frame_numbers i = consecutive a (S n)
                 /\ a + Z.of_nat n = Z.of_nat (length [[d]; [d]]) - 1)
            (_instances (IDB st)).
Proof.
  intros d fr st; split; [reflexivity|].
  exact (@live_histories_have_no_gap [[d]; [d]] st eq_refl).
Defined.

(** ** The run: the tubes at the end *)

Lemma finish_eq (MIN_TUBE_LENGTH : Z) (st : loop_state) :
  loop_inv st ->
  let all := tubeslist st ++ map Tube_init (_instances (IDB st)) in
  finish MIN_TUBE_LENGTH st
  = (mkLoop (mkInstanceDB [] (_instanceid_cnt (IDB st))) (frameNr st) all,
     filter_tubes MIN_TUBE_LENGTH all).
Proof.
  intros Hinv; unfold finish.
  rewrite (@clean_at_end (IDB st) (frameNr st)); [reflexivity|].
  intros i fr Hi Hfr.
  pose proof (li_hist Hinv) as Hh; rewrite Forall_forall in Hh.
  assert (Hf : has_frame i (frame_nr fr) = true).
  { apply has_frame_in_numbers; unfold frame_numbers; apply in_map, Hfr. }
  pose proof (@history_has_frame (frameNr st - 1) (frame_nr fr) i (Hh i Hi) Hf); lia.
Qed.

Lemma finish_tubes_span (st : loop_state) :
  loop_inv st ->
  Forall (tube_span (frameNr st))
         (tubeslist st ++ map Tube_init (_instances (IDB st))).
Proof.
  intros Hinv; apply Forall_app; split; [exact (li_tubes Hinv)|].
  apply Forall_map; eapply Forall_impl; [|exact (li_hist Hinv)].
  intros i; apply history_tube_span.
Qed.

Lemma consecutive_cons (a : Z) (n : nat) :
  consecutive a (S n) = a :: consecutive (a + 1) n.
Proof.
  unfold consecutive; simpl; f_equal; [lia|].
  rewrite <- seq_shift, map_map; apply map_ext; intros; lia.
Qed.

Lemma skipn_nth_error {A} (l : list A) : forall (k : nat) (x : A),
  nth_error l k = Some x -> skipn k l = x :: skipn (S k) l.
Proof.
  induction l as [|y l IH]; intros [|k] x H; simpl in H; try discriminate.
  - inversion H; reflexivity.
  - apply IH in H; exact H.
Qed.

Lemma py_index_in_range {A} (l : list A) (k : Z) :
  0 <= k < Z.of_nat (length l) ->
  exists x, py_index l k = Ok x /\ nth_error l (Z.to_nat k) = Some x.
Proof.
  intros H; unfold py_index.
  destruct (Z.ltb_spec k 0); [lia|].
  destruct (Z.leb_spec 0 k); [|lia].
  destruct (Z.ltb_spec k (Z.of_nat (length l))); [|lia]; simpl.
  destruct (nth_error l (Z.to_nat k)) as [x|] eqn:E; [eauto|].
  apply nth_error_None in E; lia.
Qed.

Lemma read_consecutive {A} (imgs : list A) (n : nat) : forall a : Z,
  0 <= a -> a + Z.of_nat n <= Z.of_nat (length imgs) ->
  mapM (py_index imgs) (consecutive a n)
  = Ok (firstn n (skipn (Z.to_nat a) imgs)).
Proof.
  induction n as [|n IH]; intros a Ha Hn; [reflexivity|].
  rewrite consecutive_cons; cbn [mapM].
  destruct (@py_index_in_range A imgs a) as (x & -> & Hx); [lia|].
  cbn [bind]; rewrite IH by lia; cbn [bind].
  rewrite (skipn_nth_error _ _ Hx); cbn [firstn].
  replace (Z.to_nat (a + 1)) with (S (Z.to_nat a)) by lia; reflexivity.
Qed.

Lemma tube_span_paths {A} (imgs : list A) (f : Z) (t : Tube) :
  tube_span f t -> f <= Z.of_nat (length imgs) ->
  exists a n,
    0 <= a /\ a + Z.of_nat n < f
    /\ min_frame t = Num a /\ max_frame t = a + Z.of_nat n
    /\ tube_frame_range t = Ok (consecutive a (S n))
    /\ tube_frame_paths imgs t = Ok (firstn (S n) (skipn (Z.to_nat a) imgs)).
Proof.
  intros (a & n & Ha & Emin & Emax & Hlt) Hlen; exists a, n.
  assert (R : tube_frame_range t = Ok (consecutive a (S n))).
  { unfold tube_frame_range, py_range; rewrite Emin, Emax.
    replace (Z.to_nat (a + Z.of_nat n + 1 - a)) with (S n) by lia; reflexivity. }
  repeat split; auto.
  unfold tube_frame_paths; rewrite R; cbn [bind].
  apply read_consecutive; lia.
Qed.

(** X11.  For every tube that a run exports, the loop over its frames reads
    [folder_dict['_img']] only at positions that exist: [min_frame] is a
    number, [0 <= min_frame <= max_frame < number of frames], the range is
    not empty, and the entries read are those from [min_frame] to
    [max_frame] in order; no index wraps around and none is out of range.
    [imgs] has one entry per frame of the video. *)
Theorem exported_tube_frames_exist {A} (video : list (list Detection))
    (imgs : list A) (st : loop_state) (MIN_TUBE_LENGTH : Z) :
  main_loop video = Ok st ->
  length imgs = length video ->
  Forall (fun t => exists a n,
              0 <= a /\ a + Z.of_nat n < Z.of_nat (length video)
              /\ min_frame t = Num a /\ max_frame t = a + Z.of_nat n
              /\ tube_frame_range t = Ok (consecutive a (S n))
              /\ tube_frame_paths imgs t
                 = Ok (firstn (S n) (skipn (Z.to_nat a) imgs)))
         (snd (finish MIN_TUBE_LENGTH st)).
Proof.
  intros H Hlen.
  pose proof (main_loop_loop_inv _ H) as Hinv.
  pose proof (main_loop_frameNr _ H) as Hf.
  rewrite (finish_eq MIN_TUBE_LENGTH Hinv); cbn [snd].
  pose proof (finish_tubes_span Hinv) as Hs; rewrite Forall_forall in Hs.
  apply Forall_forall; intros t Ht.
  apply filter_In in Ht as [Ht _].
  rewrite <- Hf; apply tube_span_paths; [apply Hs, Ht | lia].
Qed.

Lemma exported_tube_frames_exist_witness :
  let d := mkDetection "kicking" [[255]] [(0, 0); (0, 1); (1, 1); (1, 0)] [] in
  let fr k := mkInstanceFrameData k [[255]] [(0, 0); (0, 1); (1, 1); (1, 0)] [] in
  let st := mkLoop (mkInstanceDB [mkInstance 1 "kicking" [fr 0; fr 1]] 1) 2 [] in
  let imgs := ["000000001.png"%string; "000000002.png"%string] in
  snd (finish 1 st) = [mkTube "kicking" 1 (Num 0) (Num 0) 1 1 (Num 0) 1]
  /\ Forall (fun t => exists a n,
                 0 <= a /\ a + Z.of_nat n < Z.of_nat (length [[d]; [d]])
                 /\ min_frame t = Num a /\ max_frame t = a + Z.of_nat n
                 /\ tube_frame_range t = Ok (consecutive a (S n))
                 /\ tube_frame_paths imgs t
                    = Ok (firstn (S n) (skipn (Z.to_nat a) imgs)))
            (snd (finish 1 st)).
Proof.
  intros d fr st imgs; split; [reflexivity|].
  exact (@exported_tube_frames_exist string [[d]; [d]] imgs st 1 eq_refl eq_refl).
Defined.

Lemma NoDup_consecutive (a : Z) (n : nat) : NoDup (consecutive a n).
Proof.
  induction n as [|n IH]; [constructor|].
  rewrite consecutive_snoc; apply NoDup_snoc; [exact IH|].
  intros H; apply in_consecutive in H; lia.
Qed.

(** X12.  No two tubes that a run exports share a [tube_id].  When
    [SAVE_VIDEO_TUBES] stays on, that is when the recording has at least
    [MIN_TUBE_LENGTH] frames, the tubes built by the end of the run, before
    the duration filter, carry exactly the ids that the counter handed
    out, each once: their [tube_id]s are a permutation of 1, ...,
    [_instanceid_cnt]. *)
Theorem tube_ids_are_the_ids_handed_out (video : list (list Detection))
    (st : loop_state) (MIN_TUBE_LENGTH : Z) :
  main_loop video = Ok st ->
  NoDup (map tube_id (snd (finish MIN_TUBE_LENGTH st)))
  /\ (SAVE_VIDEO_TUBES (Z.of_nat (length video)) MIN_TUBE_LENGTH = true ->
      0 <= _instanceid_cnt (IDB st)
      /\ Permutation (map tube_id (tubeslist (fst (finish MIN_TUBE_LENGTH st))))
                     (consecutive 1 (Z.to_nat (_instanceid_cnt (IDB st))))).
Proof.
  intros H; pose proof (main_loop_loop_inv _ H) as Hinv.
  rewrite (finish_eq MIN_TUBE_LENGTH Hinv); cbn [fst snd tubeslist].
  assert (P : Permutation
                (map tube_id (tubeslist st ++ map Tube_init (_instances (IDB st))))
                (consecutive 1 (Z.to_nat (_instanceid_cnt (IDB st))))).
  { rewrite map_app, map_map.
    change (map (fun x => tube_id (Tube_init x))) with (map instance_id).
    exact (li_ids Hinv). }
  split; [|intros _; split; [exact (li_cnt Hinv) | exact P]].
  apply NoDup_map_filter.
  eapply Permutation_NoDup; [symmetry; exact P | apply NoDup_consecutive].
Qed.

Lemma tube_ids_are_the_ids_handed_out_witness :
  let d := mkDetection "kicking" [[255]] [(0, 0); (0, 1); (1, 1); (1, 0)] [] in
  let d' := mkDetection "walking" [[255]] [(0, 0); (0, 1); (1, 1); (1, 0)] [] in
  let fr k := mkInstanceFrameData k [[255]] [(0, 0); (0, 1); (1, 1); (1, 0)] [] in
  let st := mkLoop (mkInstanceDB [mkInstance 2 "walking" [fr 1]] 2) 2
                   [mkTube "kicking" 1 (Num 0) (Num 0) 1 1 (Num 0) 0] in
  main_loop [[d]; [d']] = Ok st
  /\ SAVE_VIDEO_TUBES (Z.of_nat (length [[d]; [d']])) 0 = true
  /\ map tube_id (tubeslist (fst (finish 0 st))) = [1; 2]
  /\ NoDup (map tube_id (snd (finish 0 st)))
  /\ 0 <= _instanceid_cnt (IDB st)
  /\ Permutation (map tube_id (tubeslist (fst (finish 0 st))))
                 (consecutive 1 (Z.to_nat (_instanceid_cnt (IDB st)))).
Proof.
  intros d d' fr st.
  split; [reflexivity | split; [reflexivity | split; [reflexivity|]]].
  split.
  - exact (proj1 (@tube_ids_are_the_ids_handed_out [[d]; [d']] st 0 eq_refl)).
  - exact (proj2 (@tube_ids_are_the_ids_handed_out [[d]; [d']] st 0 eq_refl)
                 eq_refl).
Defined.

(** X13.  A video of at most [MIN_TUBE_LENGTH] frames exports no tube: a
    tube spans [max_frame - min_frame + 1] frames of the video, so it needs
    more than [MIN_TUBE_LENGTH] of them. *)
Theorem short_video_exports_nothing (video : list (list Detection))
    (st : loop_state) (MIN_TUBE_LENGTH : Z) :
  main_loop video = Ok st ->
  Z.of_nat (length video) <= MIN_TUBE_LENGTH ->
  snd (finish MIN_TUBE_LENGTH st) = [].
Proof.
  intros H Hlen.
  pose proof (main_loop_loop_inv _ H) as Hinv.
  pose proof (main_loop_frameNr _ H) as Hf.
  rewrite (finish_eq MIN_TUBE_LENGTH Hinv); cbn [snd].
  pose proof (finish_tubes_span Hinv) as Hs; rewrite Forall_forall in Hs.
  apply filter_none; intros t Ht.
  destruct (Hs t Ht) as (a & n & Ha & Emin & Emax & Hlt).
  unfold keep; rewrite Emin, Emax; simpl; apply Z.leb_gt; lia.
Qed.

Lemma short_video_exports_nothing_witness :
  let d := mkDetection "kicking" [[255]] [(0, 0); (0, 1); (1, 1); (1, 0)] [] in
  let fr k := mkInstanceFrameData k [[255]] [(0, 0); (0, 1); (1, 1); (1, 0)] [] in
  let st := mkLoop (mkInstanceDB [mkInstance 1 "kicking" [fr 0; fr 1]] 1) 2 [] in
  main_loop [[d]; [d]] = Ok st /\ snd (finish 2 st) = [].
Proof.
  intros d fr st; split; [reflexivity|].
  apply (@short_video_exports_nothing [[d]; [d]] st 2); [reflexivity | simpl; lia].
Defined.

(** ** The run: what a frame leaves in the store *)

Lemma find_hd_filter {A} (p : A -> bool) (l : list A) :
  find p l = hd_error (filter p l).
Proof.
  induction l as [|a l IH]; simpl; [reflexivity|].
  destruct (p a); [reflexivity | exact IH].
Qed.

Lemma get_frame_with_nr_single (i : Instance) (f : Z) (fr : InstanceFrameData) :
  frames_with_nr i f = [fr] -> get_frame_with_nr i (PyInt f) = Ok fr.
Proof.
  intros E; unfold get_frame_with_nr.
  change (fun fr0 => py_int_eq (frame_nr fr0) (PyInt f))
    with (fun fr0 => frame_nr fr0 =? f).
  rewrite find_hd_filter; fold (frames_with_nr i f); rewrite E; reflexivity.
Qed.

Lemma drawn_records (db : InstanceDB) (f : Z) :
  Forall (fun i => (length (frames_with_nr i f) <= 1)%nat) (_instances db) ->
  drawn db f = map (fun p => (Ok (fst p), snd p)) (records_at db f).
Proof.
  unfold drawn, get_instances_in_frame, records_at.
  induction 1 as [|i l Hi Hl IH]; simpl; [reflexivity|].
  rewrite !map_app, IH; f_equal.
  destruct (frames_with_nr i f) as [|fr [|fr' frs]] eqn:E; simpl in *.
  - reflexivity.
  - rewrite (@get_frame_with_nr_single i f fr E); reflexivity.
  - lia.
Qed.

Lemma records_count (l : list Instance) (f : Z) :
  Forall (fun i => (length (frames_with_nr i f) <= 1)%nat) l ->
  length (flat_map (fun i => map (fun fr => (fr, instance_of i))
                                 (frames_with_nr i f)) l)
  = length (filter (fun i => has_frame i f) l).
Proof.
  induction 1 as [|i l Hi Hl IH]; simpl; [reflexivity|].
  rewrite length_app, length_map, IH.
  destruct (has_frame i f) eqn:Hf.
  - apply has_frame_frames_with_nr in Hf.
    destruct (frames_with_nr i f) as [|fr [|fr' frs]]; simpl in *;
      [congruence | reflexivity | lia].
  - destruct (frames_with_nr i f) eqn:E; [reflexivity|].
    assert (has_frame i f = true)
      by (apply has_frame_frames_with_nr; rewrite E; discriminate).
    congruence.
Qed.

Lemma track_frame_of_run (video : list (list Detection)) (st : loop_state)
    (dets : list Detection) (db : InstanceDB) :
  main_loop video = Ok st ->
  track_frame (IDB st) (frameNr st) dets = Ok db ->
  frame_inv (tubeslist st) (frameNr st) dets db.
Proof.
  intros H Ht; pose proof (main_loop_loop_inv _ H) as Hinv.
  exact (@track_frame_frame_inv (tubeslist st) (frameNr st) dets [] (IDB st) db
           (li_frame Hinv) (loop_inv_frame_inv Hinv) Ht).
Qed.

(** X14.  After the detections of a frame are committed, the drawing loop
    finds each of them exactly once: the frame data and labels it looks up
    (through [get_instances_in_frame] and [get_frame_with_nr]) are, up to
    order, the masks and boxes of the detections of the frame with their
    labels, and no lookup fails. *)
Theorem drawn_are_the_detections (video : list (list Detection))
    (st : loop_state) (dets : list Detection) (db : InstanceDB) :
  main_loop video = Ok st ->
  track_frame (IDB st) (frameNr st) dets = Ok db ->
  Permutation (drawn db (frameNr st))
              (map (fun d => (Ok (det_record (frameNr st) d), det_label d)) dets).
Proof.
  intros H Ht; pose proof (@track_frame_of_run video st dets db H Ht) as Hf.
  rewrite (@drawn_records db (frameNr st) (inv_once (fi_tracker Hf))).
  pose proof (Permutation_map (fun p => (Ok (fst p), snd p)) (fi_drawn Hf)) as P.
  rewrite map_map in P; exact P.
Qed.

Lemma drawn_are_the_detections_witness :
  let box := [(0, 0); (0, 1); (2, 1); (2, 0)] in
  let d := mkDetection "kicking" [[255; 255]; [0; 0]] box [] in
  let d' := mkDetection "kicking" [[255; 0]; [0; 0]] box [] in
  let fr0 := mkInstanceFrameData 0 [[255; 255]; [0; 0]] box [] in
  let fr1 := mkInstanceFrameData 1 [[255; 255]; [0; 0]] box [] in
  let fr1' := mkInstanceFrameData 1 [[255; 0]; [0; 0]] box [] in
  let st := mkLoop (mkInstanceDB [mkInstance 1 "kicking" [fr0]] 1) 1 [] in
  let db := mkInstanceDB [mkInstance 1 "kicking" [fr0; fr1'];
                          mkInstance 2 "kicking" [fr1]] 2 in
  main_loop [[d]] = Ok st
  /\ track_frame (IDB st) (frameNr st) [d'; d] = Ok db
  /\ Permutation (drawn db (frameNr st))
                 (map (fun d => (Ok (det_record (frameNr st) d), det_label d))
                      [d'; d]).
Proof.
  intros box d d' fr0 fr1 fr1' st db.
  split; [reflexivity | split; [reflexivity|]].
  exact (@drawn_are_the_detections [[d]] st [d'; d] db eq_refl eq_refl).
Defined.

(** X15.  After every iteration of the main loop the store holds exactly
    one live instance per detection of the frame just processed, each with
    a frame of that number: [len(IDB)] is the number of detections. *)
Theorem one_live_instance_per_detection (video : list (list Detection))
    (st st' : loop_state) (dets : list Detection) :
  main_loop video = Ok st ->
  loop_body st dets = Ok st' ->
  InstanceDB_len (IDB st') = Z.of_nat (length dets)
  /\ Forall (fun i => has_frame i (frameNr st) = true) (_instances (IDB st'))
  /\ frameNr st' = frameNr st + 1.
Proof.
  intros H Hb; unfold loop_body in Hb.
  apply bind_Ok in Hb as (db & Ht & Hb).
  pose proof (@track_frame_of_run video st dets db H Ht) as Hf.
  rewrite (@clean_by_has_frame db (frameNr st) (inv_distinct (fi_tracker Hf))) in Hb.
  inversion Hb; subst st'; clear Hb; cbn [IDB frameNr _instances].
  split; [|split; [|reflexivity]].
  - unfold InstanceDB_len; cbn [_instances]; f_equal.
    rewrite <- (@records_count (_instances db) (frameNr st) (inv_once (fi_tracker Hf))).
    fold (records_at db (frameNr st)).
    rewrite (Permutation_length (fi_drawn Hf)), length_map; reflexivity.
  - apply Forall_forall; intros i Hi; apply filter_In in Hi; tauto.
Qed.

Lemma one_live_instance_per_detection_witness :
  let box := [(0, 0); (0, 1); (2, 1); (2, 0)] in
  let d := mkDetection "kicking" [[255; 255]; [0; 0]] box [] in
  let d' := mkDetection "walking" [[0; 0]; [255; 255]] box [] in
  let fr0 := mkInstanceFrameData 0 [[255; 255]; [0; 0]] box [] in
  let fr1 := mkInstanceFrameData 1 [[0; 0]; [255; 255]] box [] in
  let st := mkLoop (mkInstanceDB [mkInstance 1 "kicking" [fr0]] 1) 1 [] in
  let st' := mkLoop (mkInstanceDB [mkInstance 2 "walking" [fr1]] 2) 2
                    [Tube_init (mkInstance 1 "kicking" [fr0])] in
  main_loop [[d]] = Ok st
  /\ loop_body st [d'] = Ok st'
  /\ InstanceDB_len (IDB st') = Z.of_nat (length [d'])
  /\ Forall (fun i => has_frame i (frameNr st) = true) (_instances (IDB st'))
  /\ frameNr st' = frameNr st + 1.
Proof.
  intros box d d' fr0 fr1 st st'.
  split; [reflexivity | split; [reflexivity|]].
  exact (@one_live_instance_per_detection [[d]] st st' [d'] eq_refl eq_refl).
Defined.

(** ** The run: a frame after which nothing can be continued *)

Lemma no_candidates (db : InstanceDB) (lbl : string) (n : Z) :
  Forall (fun i => has_frame i n = false) (_instances db) ->
  get_instances_of_type_in_frame db lbl n = [].
Proof.
  unfold get_instances_of_type_in_frame.
  induction 1 as [|i l Hi Hl IH]; simpl; [reflexivity|].
  rewrite IH, app_nil_r.
  destruct (String.eqb (instance_of i) lbl); [|reflexivity].
  destruct (frames_with_nr i n) eqn:E; [reflexivity|].
  assert (has_frame i n = true)
    by (apply has_frame_frames_with_nr; rewrite E; discriminate).
  congruence.
Qed.

Lemma track_detection_fresh (db : InstanceDB) (f : Z) (d : Detection) :
  Forall (fun i => has_frame i (f - 1) = false) (_instances db) ->
  Forall (fun i => instance_id i <= _instanceid_cnt db) (_instances db) ->
  track_detection db f d
  = Ok (mkInstanceDB
          (_instances db
           ++ [Instance_init (_instanceid_cnt db + 1) (det_label d) (det_record f d)])
          (_instanceid_cnt db + 1)).
Proof.
  intros Hno Hc; unfold track_detection, choose_instanceid.
  rewrite (@no_candidates db (det_label d) (f - 1) Hno); cbn [length Z.of_nat Z.ltb Z.compare bind].
  unfold get_unused_instance_id; cbn [bind].
  fold (det_record f d); rewrite append_frame_to_instance_eq.
  replace (is_live _ _) with false; [reflexivity|].
  symmetry; apply existsb_id_false; cbn [_instances]; intros Hin.
  apply in_map_iff in Hin as (i & Hid & Hi).
  rewrite Forall_forall in Hc; specialize (Hc i Hi); lia.
Qed.

(** X16.  When no live instance has a frame of the previous number (the
    first frame of a video, or a frame after one without detections) and
    the live ids do not exceed the counter, the loop cannot raise and
    every detection opens a new instance: the store gains one instance per
    detection, in their order, with the next ids, and the counter grows by
    their number. *)
Theorem nothing_to_continue_all_fresh (dets : list Detection) :
  forall (db : InstanceDB) (f : Z),
  Forall (fun i => has_frame i (f - 1) = false) (_instances db) ->
  Forall (fun i => instance_id i <= _instanceid_cnt db) (_instances db) ->
  track_frame db f dets
  = Ok (mkInstanceDB (_instances db ++ fresh_instances (_instanceid_cnt db) f dets)
                     (_instanceid_cnt db + Z.of_nat (length dets))).
Proof.
  unfold track_frame; induction dets as [|d dets IH]; intros db f Hno Hc.
  - simpl; rewrite app_nil_r, Z.add_0_r; destruct db; reflexivity.
  - cbn [foldM]; rewrite (@track_detection_fresh db f d Hno Hc); cbn [bind].
    rewrite IH; cbn [_instances _instanceid_cnt fresh_instances length].
    + rewrite <- app_assoc; do 2 f_equal; lia.
    + apply Forall_app; split; [exact Hno|].
      constructor; [|constructor].
      unfold has_frame; simpl; rewrite orb_false_r; apply Z.eqb_neq; lia.
    + apply Forall_app; split.
      * eapply Forall_impl; [|exact Hc]; simpl; intros; lia.
      * constructor; [simpl; lia | constructor].
Qed.

Lemma nothing_to_continue_all_fresh_witness :
  let box := [(0, 0); (0, 1); (2, 1); (2, 0)] in
  let d := mkDetection "kicking" [[255; 255]] box [] in
  let d' := mkDetection "walking" [[255]; [255]; [0]] box [] in
  track_frame (InstanceDB_init None) 0 [d; d']
  = Ok (mkInstanceDB [Instance_init 1 "kicking" (det_record 0 d);
                      Instance_init 2 "walking" (det_record 0 d')] 2).
Proof.
  intros box d d'.
  exact (@nothing_to_continue_all_fresh [d; d'] (InstanceDB_init None) 0
           (Forall_nil _) (Forall_nil _)).
Defined.

(** ** The run: when a tube is built *)



(** ** The store: testing an id before appending *)

(** X18.  [append_frame_to_instance] without a label raises [ValueError]
    exactly for the ids that [get_instance_by_id] (or [IDB[id]]) answers with
    [None]; for the others it appends, and the instance that the lookup
    returned gets the frame. *)
Theorem append_raises_iff_lookup_none (db : InstanceDB) (id : Z)
    (fr : InstanceFrameData) :
  (snd (append_frame_to_instance db id fr None) = Raise ValueError
   <-> get_instance_by_id db id = None)
  /\ (forall i, get_instance_by_id db id = Some i ->
        snd (append_frame_to_instance db id fr None) = Ok tt
        /\ get_instance_by_id (fst (append_frame_to_instance db id fr None)) id
           = Some (append_frame i fr)).
Proof.
  rewrite append_frame_to_instance_eq; unfold get_instance_by_id, is_live.
  destruct (existsb (fun i => instance_id i =? id) (_instances db)) eqn:L;
    cbn [fst snd _instances].
  - destruct (find (fun i => instance_id i =? id) (_instances db)) as [i|] eqn:F.
    + split; [split; discriminate|].
      intros j Hj; inversion Hj; subst j; split; [reflexivity|].
      rewrite find_id_map_append_where, F; simpl.
      apply find_some in F as [_ E]; unfold append_where; rewrite E; reflexivity.
    + apply existsb_exists in L as (i & Hi & E).
      rewrite (find_none _ _ F i Hi) in E; discriminate.
  - rewrite (find_id_absent _ _ L); split; [split; reflexivity | discriminate].
Qed.
